(** * music-display: the web client's view of "what is playing now"

    A shallow embedding of the TypeScript front end (frontend/src:
    types.ts, hooks/useWebSocket.ts, hooks/useColorExtraction.ts, App.tsx
    and the components).

    Conventions.
    - The wire carries [progress_ms] and [duration_ms] as integers; they are
      embedded as [Z].  The progress percentage, a quotient, is embedded in
      [Q] with a division that reports a zero divisor.
    - An optional property ([album_art_url?: string]), [null] and
      [undefined] are all embedded as [option]; [None] is the absent value.
    - React state is a record; every event handler is a function from the
      state before the event to the state after it. *)

From Stdlib Require Import ZArith QArith Lia DecimalString Sorted.
From Stdlib.Strings Require Import Byte Ascii.
From stdpp Require Import base option list strings.

Local Open Scope Z_scope.

(** ** types.ts *)

(** [export type SourceType = 'spotify' | 'analog' | 'unknown'] *)
Inductive SourceType : Set :=
  | src_spotify
  | src_analog
  | src_unknown.




(** [export interface TrackInfo] *)
Record TrackInfo : Set := mkTrackInfo {
  track_id : string;
  title : string;
  artist : string;
  album : string;
  album_art_url : option string;
  album_art_colors : option (list string);
  duration_ms : Z;
  progress_ms : Z;
  is_playing : bool;
  source : SourceType;
  release_year : option Z;
  genre : option (list string);
  lyrics : option string;
  artist_image_url : option string;
  artist_bio : option string
}.

(** A track recognised from a record player: its duration is not known
    and is reported as 0. *)
Definition vinyl_side_a : TrackInfo :=
  {| track_id := "vinyl-1";
     title := "Side A";
     artist := "Artist Y";
     album := "Album Z";
     album_art_url := None;
     album_art_colors := None;
     duration_ms := 0;
     progress_ms := 0;
     is_playing := true;
     source := src_analog;
     release_year := None;
     genre := None;
     lyrics := None;
     artist_image_url := None;
     artist_bio := None |}.

(** [export type DisplayMode =
      'album_art' | 'lyrics' | 'artist_info' | 'visualizer' | 'minimal'] *)
Inductive DisplayMode : Set :=
  | mode_album_art
  | mode_lyrics
  | mode_artist_info
  | mode_visualizer
  | mode_minimal.

Definition DisplayMode_literal (m : DisplayMode) : string :=
  match m with
  | mode_album_art => "album_art"
  | mode_lyrics => "lyrics"
  | mode_artist_info => "artist_info"
  | mode_visualizer => "visualizer"
  | mode_minimal => "minimal"
  end.

(** The mode enumeration of the design's data model:
    "album_art | lyrics | artist_info | visualizer | minimal". *)
Definition design_mode_literals : list string :=
  ["album_art"; "lyrics"; "artist_info"; "visualizer"; "minimal"].

(** [export interface DisplayState] *)
Record DisplayState : Set := mkDisplayState {
  ds_mode : DisplayMode;
  ds_brightness : Z;
  ds_track : option TrackInfo
}.

(** The [type] tag of [WSMessage]. *)
Inductive WSMessageType : Set :=
  | init
  | track_update
  | progress_update
  | mode_change.

(** [export interface WSMessage]: one record, every payload field optional. *)
Record WSMessage : Set := mkWSMessage {
  msg_type : WSMessageType;
  msg_track : option TrackInfo;
  msg_state : option DisplayState;
  msg_progress_ms : option Z;
  msg_is_playing : option bool;
  msg_mode : option DisplayMode
}.

#[global] Instance SourceType_eq_dec : EqDecision SourceType.
Proof. solve_decision. Defined.

#[global] Instance DisplayMode_eq_dec : EqDecision DisplayMode.
Proof. solve_decision. Defined.

#[global] Instance TrackInfo_eq_dec : EqDecision TrackInfo.
Proof. solve_decision. Defined.

(** ** hooks/useWebSocket.ts *)

Module UseWebSocket.

(** The three [useState] cells of the hook. *)
Record State : Set := mkState {
  isConnected : bool;
  track : option TrackInfo;
  mode : DisplayMode
}.

(** [useState(false)], [useState<TrackInfo | null>(null)],
    [useState<DisplayMode>('album_art')]. *)
Definition initial : State :=
  {| isConnected := false; track := None; mode := mode_album_art |}.

(** [setTrack] with a functional updater. *)
Definition setTrack (f : option TrackInfo -> option TrackInfo) (st : State) : State :=
  {| isConnected := isConnected st; track := f (track st); mode := mode st |}.

Definition setMode (m : DisplayMode) (st : State) : State :=
  {| isConnected := isConnected st; track := track st; mode := m |}.

Definition setIsConnected (b : bool) (st : State) : State :=
  {| isConnected := b; track := track st; mode := mode st |}.

(** [a ?? b]: the left operand unless it is [null] or [undefined]. *)
Definition nullish {A : Type} (a : option A) (b : A) : A :=
  match a with
  | Some x => x
  | None => b
  end.

(** The updater of the ['progress_update'] case:
    [prev => prev ? { ...prev, progress_ms: message.progress_ms ?? prev.progress_ms,
                      is_playing: message.is_playing ?? prev.is_playing } : null]. *)
Definition progress_updater (message : WSMessage) (prev : option TrackInfo)
  : option TrackInfo :=
  match prev with
  | Some prev =>
      Some {| track_id := track_id prev;
              title := title prev;
              artist := artist prev;
              album := album prev;
              album_art_url := album_art_url prev;
              album_art_colors := album_art_colors prev;
              duration_ms := duration_ms prev;
              progress_ms := nullish (msg_progress_ms message) (progress_ms prev);
              is_playing := nullish (msg_is_playing message) (is_playing prev);
              source := source prev;
              release_year := release_year prev;
              genre := genre prev;
              lyrics := lyrics prev;
              artist_image_url := artist_image_url prev;
              artist_bio := artist_bio prev |}
  | None => None
  end.

(** [if (message.track) setTrack(message.track)]: an object is truthy, [null]
    and [undefined] are not. *)
Definition setTrack_if_present (message : WSMessage) (st : State) : State :=
  match msg_track message with
  | Some t => setTrack (fun _ => Some t) st
  | None => st
  end.

(** [ws.current.onmessage], after [JSON.parse] succeeded.  Every
    [DisplayMode] literal is a non-empty string, hence truthy, so
    [if (message.mode)] and [if (message.state?.mode)] test presence. *)
Definition onmessage (message : WSMessage) (st : State) : State :=
  match msg_type message with
  | init =>
      let st1 := setTrack_if_present message st in
      match msg_state message with
      | Some s => setMode (ds_mode s) st1
      | None => st1
      end
  | track_update => setTrack_if_present message st
  | progress_update => setTrack (progress_updater message) st
  | mode_change =>
      match msg_mode message with
      | Some m => setMode m st
      | None => st
      end
  end.

(** [onmessage] on the raw event: a [JSON.parse] that throws is caught and
    logged, and no setter runs. *)
Definition onmessage_event (parsed : option WSMessage) (st : State) : State :=
  match parsed with
  | Some message => onmessage message st
  | None => st
  end.

(** The state after a sequence of messages, oldest first. *)
Definition run (messages : list WSMessage) (st : State) : State :=
  fold_left (fun s m => onmessage m s) messages st.

(** [ws.current.onopen] and [ws.current.onclose]: only the connection flag
    changes; the track and the mode survive a reconnect. *)
Definition onopen (st : State) : State := setIsConnected true st.
Definition onclose (st : State) : State := setIsConnected false st.

(** *** Vocabulary of the properties *)

(** The progress invariant of a track: [0 <= progress_ms <= duration_ms]. *)
Definition in_bounds (t : TrackInfo) : Prop :=
  0 <= progress_ms t <= duration_ms t.

Definition state_in_bounds (st : State) : Prop :=
  match track st with
  | Some t => in_bounds t
  | None => True
  end.

(** A message whose payload respects the invariant when it reaches a client
    in state [st]: a carried track is within bounds, and a carried progress
    lies within the duration of the client's current track. *)
Definition message_in_bounds (st : State) (message : WSMessage) : Prop :=
  match msg_type message with
  | init | track_update =>
      forall t, msg_track message = Some t -> in_bounds t
  | progress_update =>
      forall t p, track st = Some t -> msg_progress_ms message = Some p ->
                  0 <= p <= duration_ms t
  | mode_change => True
  end.

(** Every message of the sequence respects the invariant at the state in
    which the client receives it. *)
Fixpoint feed_in_bounds (st : State) (messages : list WSMessage) : Prop :=
  match messages with
  | [] => True
  | m :: rest => message_in_bounds st m /\ feed_in_bounds (onmessage m st) rest
  end.

(** [t'] has the fields of [t], except perhaps [progress_ms] and
    [is_playing]. *)
Definition same_except_progress (t t' : TrackInfo) : Prop :=
  track_id t' = track_id t
  /\ title t' = title t
  /\ artist t' = artist t
  /\ album t' = album t
  /\ album_art_url t' = album_art_url t
  /\ album_art_colors t' = album_art_colors t
  /\ duration_ms t' = duration_ms t
  /\ source t' = source t
  /\ release_year t' = release_year t
  /\ genre t' = genre t
  /\ lyrics t' = lyrics t
  /\ artist_image_url t' = artist_image_url t
  /\ artist_bio t' = artist_bio t.

(** The track of the design's first scenario: "Song X" by "Artist Y",
    progress 0 of 200000. *)
Definition song_x : TrackInfo :=
  {| track_id := "track-x";
     title := "Song X";
     artist := "Artist Y";
     album := "Album Z";
     album_art_url := None;
     album_art_colors := None;
     duration_ms := 200000;
     progress_ms := 0;
     is_playing := true;
     source := src_spotify;
     release_year := None;
     genre := None;
     lyrics := None;
     artist_image_url := None;
     artist_bio := None |}.

Definition playing_song_x : State :=
  {| isConnected := true; track := Some song_x; mode := mode_lyrics |}.

(** [{type: "track_update", track}] *)
Definition track_update_of (t : TrackInfo) : WSMessage :=
  {| msg_type := track_update; msg_track := Some t; msg_state := None;
     msg_progress_ms := None; msg_is_playing := None; msg_mode := None |}.

(** [{type: "progress_update", progress_ms, is_playing}] *)
Definition progress_update_of (p : Z) (playing : bool) : WSMessage :=
  {| msg_type := progress_update; msg_track := None; msg_state := None;
     msg_progress_ms := Some p; msg_is_playing := Some playing; msg_mode := None |}.

(** [{type: "mode_change", mode}] *)
Definition mode_change_of (m : DisplayMode) : WSMessage :=
  {| msg_type := mode_change; msg_track := None; msg_state := None;
     msg_progress_ms := None; msg_is_playing := None; msg_mode := Some m |}.

(** [{type: "init", track, state: {mode, brightness}}] *)
Definition init_of (t : option TrackInfo) (m : DisplayMode) (brightness : Z) : WSMessage :=
  {| msg_type := init; msg_track := t;
     msg_state := Some {| ds_mode := m; ds_brightness := brightness; ds_track := None |};
     msg_progress_ms := None; msg_is_playing := None; msg_mode := None |}.

End UseWebSocket.

(** ** components/AlbumArtDisplay.tsx and components/MinimalDisplay.tsx *)

(** Division that reports a zero divisor instead of producing a value.  In
    JavaScript [x / 0] is [Infinity] or [NaN]; [None] marks that the
    quotient was asked for with divisor zero. *)
Definition checked_div (a b : Q) : option Q :=
  if Qeq_bool b 0 then None else Some (a / b)%Q.

Module AlbumArtDisplay.

(** [const progressPercent = track.duration_ms > 0
      ? (track.progress_ms / track.duration_ms) * 100 : 0] *)
Definition progressPercent (track : TrackInfo) : option Q :=
  if decide (duration_ms track > 0)
  then q ← checked_div (inject_Z (progress_ms track)) (inject_Z (duration_ms track));
       Some (q * 100)%Q
  else Some 0%Q.

(** [formatTime]: [Math.floor(ms / 1000)], then minutes and seconds. *)
Definition formatTime (ms : Z) : Z * Z :=
  let seconds := ms / 1000 in
  (seconds / 60, Z.rem seconds 60).

End AlbumArtDisplay.

Module MinimalDisplay.

(** The same expression as in [AlbumArtDisplay], written out again in
    the component. *)
Definition progressPercent (track : TrackInfo) : option Q :=
  if decide (duration_ms track > 0)
  then q ← checked_div (inject_Z (progress_ms track)) (inject_Z (duration_ms track));
       Some (q * 100)%Q
  else Some 0%Q.

End MinimalDisplay.

(** ** App.tsx *)

Module App.

(** [Array.prototype.indexOf]: the index of the first element strictly
    equal to [x], or [-1]. *)
Fixpoint indexOf_from {A : Type} `{EqDecision A} (x : A) (l : list A) (i : Z) : Z :=
  match l with
  | [] => -1
  | y :: l' => if decide (y = x) then i else indexOf_from x l' (i + 1)
  end.

Definition indexOf {A : Type} `{EqDecision A} (x : A) (l : list A) : Z :=
  indexOf_from x l 0.

(** [l[i]]: [undefined] for a negative or too large index. *)
Definition array_get {A : Type} (l : list A) (i : Z) : option A :=
  if decide (0 <= i) then l !! Z.to_nat i else None.

(** The local [modes] array of [handleKeyDown]. *)
Definition modes : list DisplayMode :=
  [mode_album_art; mode_lyrics; mode_artist_info; mode_visualizer; mode_minimal].

(** The part of the component state that the keyboard handler reads and
    writes, and the requests it has sent. *)
Record State : Set := mkState {
  currentMode : DisplayMode;
  posted : list string
}.

(** [handleModeChange]: [setCurrentMode(newMode)] and a POST to
    [/api/display/mode/${newMode}]. *)
Definition handleModeChange (newMode : DisplayMode) (st : State) : State :=
  {| currentMode := newMode;
     posted := posted st ++ ["/api/display/mode/" +:+ DisplayMode_literal newMode] |}.

(** [handleKeyDown].  JavaScript's [%] is the remainder that takes the sign
    of the dividend, [Z.rem].  [None] stands for a call of
    [handleModeChange] with [undefined], an array read out of range. *)
Definition handleKeyDown (key : string) (st : State) : option State :=
  let currentIndex := indexOf (currentMode st) modes in
  let len := Z.of_nat (length modes) in
  if decide (key = "ArrowRight") then
    nextMode ← array_get modes (Z.rem (currentIndex + 1) len);
    Some (handleModeChange nextMode st)
  else if decide (key = "ArrowLeft") then
    prevMode ← array_get modes (Z.rem (currentIndex - 1 + len) len);
    Some (handleModeChange prevMode st)
  else if decide (key = " ") then
    Some {| currentMode := currentMode st;
            posted := posted st ++ ["/api/control/play-pause"] |}
  else Some st.

(** What [renderDisplay] returns: the component and its props. *)
Inductive Element : Set :=
  | IdleScreen (isConnected isAuthenticated : bool) (activeSource : string)
  | AlbumArtDisplay (track : TrackInfo)
  | LyricsDisplay (track : TrackInfo)
  | ArtistInfoDisplay (track : TrackInfo)
  | VisualizerDisplay (track : TrackInfo)
  | MinimalDisplay (track : TrackInfo).

(** [renderDisplay]: the [switch] compares the mode string with each case
    label in turn and has a [default] branch. *)
Definition renderDisplay (isConnected isAuthenticated isDemoMode : bool)
    (activeSource : string) (track : option TrackInfo) (currentMode : DisplayMode)
  : Element :=
  match track with
  | None => IdleScreen isConnected (isAuthenticated || isDemoMode) activeSource
  | Some track =>
      let m := DisplayMode_literal currentMode in
      if decide (m = "album_art") then AlbumArtDisplay track
      else if decide (m = "lyrics") then LyricsDisplay track
      else if decide (m = "artist_info") then ArtistInfoDisplay track
      else if decide (m = "visualizer") then VisualizerDisplay track
      else if decide (m = "minimal") then MinimalDisplay track
      else AlbumArtDisplay track
  end.

End App.

(** ** hooks/useColorExtraction.ts *)

Module UseColorExtraction.

Record ColorPalette : Set := mkColorPalette {
  dominant : string;
  vibrant : string;
  muted : string;
  darkVibrant : string;
  darkMuted : string;
  lightVibrant : string
}.

Definition defaultPalette : ColorPalette :=
  {| dominant := "#1a1a2e";
     vibrant := "#4a4a6a";
     muted := "#2a2a3e";
     darkVibrant := "#0a0a1e";
     darkMuted := "#1a1a2e";
     lightVibrant := "#6a6a8a" |}.

(** The numbers this hook computes with: a non-negative integer or [NaN]. *)
Inductive jsnumber : Set :=
  | JNum (n : N)
  | JNaN.

(** A number inside a template literal. *)
Definition number_text (x : jsnumber) : string :=
  match x with
  | JNum n => NilEmpty.string_of_uint (N.to_uint n)
  | JNaN => "NaN"
  end.

(** A destructured array element inside a template literal; a missing one
    prints as [undefined]. *)
Definition element_text (x : option jsnumber) : string :=
  match x with
  | Some n => number_text n
  | None => "undefined"
  end.

(** [Math.round(pixels[i] / 32) * 32].  A channel of the
    [Uint8ClampedArray] is an integer [c] in 0..255, [c / 32] is exact, and
    [Math.round] rounds halves up, so the rounded quotient is
    [(c + 16) / 32] in integer division.  A read past the end of the array
    is [undefined] and the result is [NaN]. *)
Definition quantize (channel : option Byte.byte) : jsnumber :=
  match channel with
  | Some c => JNum ((Byte.to_N c + 16) / 32 * 32)
  | None => JNaN
  end.

(** [`${r},${g},${b}`] *)
Definition color_key (r g b : jsnumber) : string :=
  number_text r +:+ "," +:+ number_text g +:+ "," +:+ number_text b.

(** The keys in the order the loop [for (i = 0; i < pixels.length; i += 4)]
    produces them.  Image data has four bytes per pixel; the shorter
    patterns are the reads past the end of a shorter array. *)
Fixpoint pixel_keys (pixels : list Byte.byte) : list string :=
  match pixels with
  | [] => []
  | r :: g :: b :: _ :: rest =>
      color_key (quantize (Some r)) (quantize (Some g)) (quantize (Some b))
        :: pixel_keys rest
  | [r; g; b] =>
      [color_key (quantize (Some r)) (quantize (Some g)) (quantize (Some b))]
  | [r; g] => [color_key (quantize (Some r)) (quantize (Some g)) (quantize None)]
  | [r] => [color_key (quantize (Some r)) (quantize None) (quantize None)]
  end.

(** A JavaScript [Map<string, number>] keeps its entries in insertion
    order; [set] on a key that is present keeps the entry's place. *)
Definition CountMap : Set := list (string * N).

Fixpoint map_get (key : string) (m : CountMap) : option N :=
  match m with
  | [] => None
  | (k, v) :: m' => if decide (k = key) then Some v else map_get key m'
  end.

Fixpoint map_set (key : string) (value : N) (m : CountMap) : CountMap :=
  match m with
  | [] => [(key, value)]
  | (k, v) :: m' =>
      if decide (k = key) then (key, value) :: m' else (k, v) :: map_set key value m'
  end.

(** [colorCounts.set(key, (colorCounts.get(key) || 0) + 1)] *)
Definition count_key (m : CountMap) (key : string) : CountMap :=
  map_set key (default 0%N (map_get key m) + 1)%N m.

Definition colorCounts (pixels : list Byte.byte) : CountMap :=
  fold_left count_key (pixel_keys pixels) [].

(** [Array.prototype.sort] with a comparator is a stable sort: [a] is put
    before [b] when [cmp a b < 0], and elements that compare equal stay in
    their order.  Insertion from the right end computes it. *)
Fixpoint sort_insert {A : Type} (cmp : A -> A -> Z) (e : A) (l : list A) : list A :=
  match l with
  | [] => [e]
  | h :: t => if decide (cmp h e < 0) then h :: sort_insert cmp e t else e :: h :: t
  end.

Definition sort {A : Type} (cmp : A -> A -> Z) (l : list A) : list A :=
  foldr (sort_insert cmp) [] l.

(** [(a, b) => b[1] - a[1]] *)
Definition by_count_desc (a b : string * N) : Z := Z.of_N (snd b) - Z.of_N (snd a).

(** [String.prototype.split] with a one-character separator. *)
Fixpoint split (sep : Ascii.ascii) (s : string) : list string :=
  match s with
  | EmptyString => [EmptyString]
  | String c s' =>
      if decide (c = sep) then EmptyString :: split sep s'
      else match split sep s' with
           | h :: t => String c h :: t
           | [] => [String c EmptyString]
           end
  end.

Definition digit_value (c : Ascii.ascii) : option N :=
  let n := Ascii.N_of_ascii c in
  if decide (48 <= n <= 57)%N then Some (n - 48)%N else None.

Fixpoint digits_value (s : string) (acc : N) : option N :=
  match s with
  | EmptyString => Some acc
  | String c s' =>
      match digit_value c with
      | Some d => digits_value s' (10 * acc + d)%N
      | None => None
      end
  end.

(** [Number(s)] on the strings that occur here: a run of decimal digits is
    its value (the empty string is 0), [NaN] and [undefined] are [NaN]. *)
Definition Number (s : string) : jsnumber :=
  match digits_value s 0%N with
  | Some n => JNum n
  | None => JNaN
  end.

(** [([color]) => { const [r, g, b] = color.split(',').map(Number);
                    return `rgb(${r}, ${g}, ${b})`; }] *)
Definition rgb_of_entry (entry : string * N) : string :=
  let parts := Number <$> split ","%char (fst entry) in
  "rgb(" +:+ element_text (parts !! 0%nat) +:+ ", "
         +:+ element_text (parts !! 1%nat) +:+ ", "
         +:+ element_text (parts !! 2%nat) +:+ ")".

(** [[...colorCounts.entries()].sort(...).slice(0, 6).map(...)] *)
Definition sortedColors (pixels : list Byte.byte) : list string :=
  rgb_of_entry <$> take 6 (sort by_count_desc (colorCounts pixels)).

(** [a || b] on strings: [b] when [a] is [undefined] or the empty string. *)
Definition or_else (a : option string) (b : string) : string :=
  match a with
  | Some s => if decide (s = EmptyString) then b else s
  | None => b
  end.

(** The palette that [img.onload] stores. *)
Definition extracted (pixels : list Byte.byte) : ColorPalette :=
  let sortedColors := sortedColors pixels in
  {| dominant := or_else (sortedColors !! 0%nat) (dominant defaultPalette);
     vibrant := or_else (sortedColors !! 1%nat) (vibrant defaultPalette);
     muted := or_else (sortedColors !! 2%nat) (muted defaultPalette);
     darkVibrant := or_else (sortedColors !! 3%nat) (darkVibrant defaultPalette);
     darkMuted := or_else (sortedColors !! 4%nat) (darkMuted defaultPalette);
     lightVibrant := or_else (sortedColors !! 5%nat) (lightVibrant defaultPalette) |}.

(** What can happen to the hook's [palette] cell. *)
Inductive Event : Set :=
  | EffectRun (imageUrl : option string)
      (* the effect body runs for a new [imageUrl] *)
  | ImageLoaded (context2d : bool) (pixels : list Byte.byte).
      (* [img.onload] fires; [context2d] is false when [getContext('2d')]
         returned null, and [pixels] is the data of [getImageData].  The
         effect has no cleanup: a load may complete after a later run. *)

(** [!imageUrl]: [undefined] and the empty string are falsy. *)
Definition falsy_url (imageUrl : option string) : bool :=
  match imageUrl with
  | Some s => bool_decide (s = EmptyString)
  | None => true
  end.

Definition step (e : Event) (palette : ColorPalette) : ColorPalette :=
  match e with
  | EffectRun imageUrl => if falsy_url imageUrl then defaultPalette else palette
  | ImageLoaded context2d pixels => if context2d then extracted pixels else palette
  end.

(** The palette the hook returns after a history of events, starting from
    [useState(defaultPalette)]. *)
Definition useColorExtraction (history : list Event) : ColorPalette :=
  fold_left (fun p e => step e p) history defaultPalette.

(** *** Vocabulary of the properties *)

#[global] Instance jsnumber_eq_dec : EqDecision jsnumber.
Proof. solve_decision. Defined.

(** The six fields of a palette, in the order of the interface. *)
Definition slots (p : ColorPalette) : list string :=
  [dominant p; vibrant p; muted p; darkVibrant p; darkMuted p; lightVibrant p].

(** A defined colour string: a hexadecimal colour or an [rgb(...)] colour. *)
Definition is_color_string (s : string) : bool :=
  String.prefix "#" s || String.prefix "rgb(" s.

(** The events that store an extracted palette: a load whose handler got
    a drawing context. *)
Definition completes_load (e : Event) : bool :=
  match e with
  | ImageLoaded true _ => true
  | _ => false
  end.

(** All six fields are defined colour strings. *)
Definition well_formed (palette : ColorPalette) : Prop :=
  Forall (fun s => is_color_string s = true) (slots palette).

(** [`rgb(${r}, ${g}, ${b})`] *)
Definition rgb_text (r g b : jsnumber) : string :=
  "rgb(" +:+ number_text r +:+ ", " +:+ number_text g +:+ ", "
         +:+ number_text b +:+ ")".

(** The values a quantized channel can take: the multiples of 32 from 0 to
    256, and [NaN] for a read past the end of the array. *)
Definition quantized_values : list jsnumber :=
  [JNum 0; JNum 32; JNum 64; JNum 96; JNum 128; JNum 160; JNum 192; JNum 224;
   JNum 256; JNaN].

(** The entries are in descending order of count. *)
Definition count_desc (a b : string * N) : Prop := (snd b <= snd a)%N.

(** The number of pixels whose key is [key]. *)
Definition occurrences (key : string) (keys : list string) : N :=
  N.of_nat (length (filter (fun k => k = key) keys)).

(** Four pixels: two of colour (0, 32, 256), then one of (32, 32, 32), then
    one more of (0, 32, 256). *)
Definition sample_pixels : list Byte.byte :=
  [x00; x10; xff; xff;  x00; x10; xff; xff;  x20; x20; x20; xff;
   x00; x10; xff; xff]%byte.

End UseColorExtraction.

(** ** Values in a boolean position *)

Module Truthy.

(** A string or [undefined] in a condition: [undefined] and the empty
    string are falsy. *)
Definition truthy (a : option string) : bool :=
  match a with
  | Some s => negb (bool_decide (s = EmptyString))
  | None => false
  end.

(** [a || b] on optional strings: [a] when it is truthy, [b] otherwise. *)
Definition or (a b : option string) : option string :=
  if truthy a then a else b.

End Truthy.

(** ** components/IdleScreen.tsx *)

Module IdleScreen.

Inductive Icon : Set :=
  | Radio
  | Disc3
  | Headphones
  | Music2.

(** [getSourceIcon]: a [switch] on the [activeSource] prop. *)
Definition getSourceIcon (activeSource : option string) : Icon :=
  match activeSource with
  | Some s =>
      if decide (s = "lastfm") then Radio
      else if decide (s = "audio") then Disc3
      else if decide (s = "spotify") then Headphones
      else Music2
  | None => Music2
  end.

(** [getSourceLabel] *)
Definition getSourceLabel (activeSource : option string) : string :=
  match activeSource with
  | Some s =>
      if decide (s = "lastfm") then "Last.fm"
      else if decide (s = "audio") then "Listening..."
      else if decide (s = "spotify") then "Spotify"
      else if decide (s = "demo") then "Demo Mode"
      else "Music Display"
  | None => "Music Display"
  end.

(** The block under the heading: a status line, or the connect button. *)
Inductive Body : Set :=
  | ConnectingToServer
  | ConnectSpotifyButton
  | WaitingForMusic.

(** [!isConnected ? ... : !isAuthenticated ? ... : ...] *)
Definition body (isConnected isAuthenticated : bool) : Body :=
  if negb isConnected then ConnectingToServer
  else if negb isAuthenticated then ConnectSpotifyButton
  else WaitingForMusic.

(** The status indicator at the bottom: dot colour class and text. *)
Definition indicator (isConnected : bool) : string * string :=
  (if isConnected then "bg-green-500" else "bg-red-500",
   if isConnected then "Connected" else "Disconnected").

(** What the component shows. *)
Record View : Set := mkView {
  icon : Icon;
  heading : string;
  content : Body;
  status : string * string
}.

Definition render (isConnected isAuthenticated : bool) (activeSource : option string)
  : View :=
  {| icon := getSourceIcon activeSource;
     heading := getSourceLabel activeSource;
     content := body isConnected isAuthenticated;
     status := indicator isConnected |}.

End IdleScreen.

(** ** components/ModeIndicator.tsx *)

Module ModeIndicator.

(** The module-level [modes] table; the icon component is named by its
    import. *)
Record Entry : Set := mkEntry {
  entry_mode : DisplayMode;
  entry_icon : string;
  entry_label : string
}.

Definition modes : list Entry :=
  [ {| entry_mode := mode_album_art; entry_icon := "Disc3"; entry_label := "Album" |};
    {| entry_mode := mode_lyrics; entry_icon := "Mic2"; entry_label := "Lyrics" |};
    {| entry_mode := mode_artist_info; entry_icon := "User"; entry_label := "Artist" |};
    {| entry_mode := mode_visualizer; entry_icon := "Activity";
       entry_label := "Visualizer" |};
    {| entry_mode := mode_minimal; entry_icon := "Minimize2"; entry_label := "Minimal" |} ].

(** One rendered button: its [title], whether it is drawn as the current
    one ([currentMode === mode]), and the argument its [onClick] passes to
    [onModeChange]. *)
Record Button : Set := mkButton {
  button_title : string;
  button_current : bool;
  button_click : DisplayMode
}.

Definition render (currentMode : DisplayMode) : list Button :=
  (fun e => {| button_title := entry_label e;
               button_current := bool_decide (currentMode = entry_mode e);
               button_click := entry_mode e |}) <$> modes.

End ModeIndicator.

(** ** App.tsx: the component around the hook *)

Module AppShell.

(** The JSON body of [/api/auth/status], as far as the component reads
    it. *)
Record AuthStatus : Set := mkAuthStatus {
  data_spotify : bool;
  data_demo_mode : bool;
  data_active_source : option string
}.

(** The [useState] cells of [App] together with the state of the hook.
    [rendered_mode] is the hook's [mode] as the last render saw it: the
    dependency of the mode effect, with which the next render compares. *)
Record State : Set := mkState {
  ws : UseWebSocket.State;
  rendered_mode : DisplayMode;
  isAuthenticated : bool;
  isDemoMode : bool;
  activeSource : string;
  keys : App.State
}.

(** [useState(false)], [useState(false)], [useState<string>('demo')],
    [useState<DisplayMode>(mode)]. *)
Definition initial : State :=
  {| ws := UseWebSocket.initial;
     rendered_mode := UseWebSocket.mode UseWebSocket.initial;
     isAuthenticated := false;
     isDemoMode := false;
     activeSource := "demo";
     keys := {| App.currentMode := UseWebSocket.mode UseWebSocket.initial;
                App.posted := [] |} |}.

(** What happens to the component.  The setters called by a socket
    handler only store the new state; React renders later, and several
    messages may be handled before one render.  [Render] is a render with
    the state stored so far, followed by its effects. *)
Inductive Event : Set :=
  | SocketOpen
  | SocketClose
  | SocketMessage (parsed : option WSMessage)
  | Render
  | StatusFetched (data : AuthStatus)
  | StatusFailed
  | AuthSuccessParam
  | KeyDown (key : string)
  | ModeClick (newMode : DisplayMode).

Definition with_ws (w : UseWebSocket.State) (st : State) : State :=
  {| ws := w; rendered_mode := rendered_mode st;
     isAuthenticated := isAuthenticated st; isDemoMode := isDemoMode st;
     activeSource := activeSource st; keys := keys st |}.

Definition with_keys (k : App.State) (st : State) : State :=
  {| ws := ws st; rendered_mode := rendered_mode st;
     isAuthenticated := isAuthenticated st; isDemoMode := isDemoMode st;
     activeSource := activeSource st; keys := k |}.

(** [useEffect(() => { setCurrentMode(mode); }, [mode])] at a render: the
    effect runs when the hook's [mode] differs from the one the render
    before saw, and the [mode] of this render becomes the one to compare
    with. *)
Definition sync_mode (st : State) : State :=
  if decide (UseWebSocket.mode (ws st) = rendered_mode st) then st
  else {| ws := ws st;
          rendered_mode := UseWebSocket.mode (ws st);
          isAuthenticated := isAuthenticated st;
          isDemoMode := isDemoMode st;
          activeSource := activeSource st;
          keys := {| App.currentMode := UseWebSocket.mode (ws st);
                     App.posted := App.posted (keys st) |} |}.

Definition step (e : Event) (st : State) : State :=
  match e with
  | SocketOpen => with_ws (UseWebSocket.onopen (ws st)) st
  | SocketClose => with_ws (UseWebSocket.onclose (ws st)) st
  | SocketMessage parsed =>
      with_ws (UseWebSocket.onmessage_event parsed (ws st)) st
  | Render => sync_mode st
  | StatusFetched data =>
      (* [setIsAuthenticated(data.spotify); setIsDemoMode(data.demo_mode);
          setActiveSource(data.active_source || 'demo')] *)
      {| ws := ws st;
         rendered_mode := rendered_mode st;
         isAuthenticated := data_spotify data;
         isDemoMode := data_demo_mode data;
         activeSource := UseColorExtraction.or_else (data_active_source data) "demo";
         keys := keys st |}
  | StatusFailed =>
      (* [.catch(() => setIsAuthenticated(false))] *)
      {| ws := ws st; rendered_mode := rendered_mode st;
         isAuthenticated := false; isDemoMode := isDemoMode st;
         activeSource := activeSource st; keys := keys st |}
  | AuthSuccessParam =>
      (* [if (params.get('auth') === 'success') setIsAuthenticated(true)] *)
      {| ws := ws st; rendered_mode := rendered_mode st;
         isAuthenticated := true; isDemoMode := isDemoMode st;
         activeSource := activeSource st; keys := keys st |}
  | KeyDown key =>
      match App.handleKeyDown key (keys st) with
      | Some k => with_keys k st
      | None => st
      end
  | ModeClick newMode => with_keys (App.handleModeChange newMode (keys st)) st
  end.

Definition run (events : list Event) (st : State) : State :=
  fold_left (fun s e => step e s) events st.

(** The element [renderDisplay()] returns in this state. *)
Definition display (st : State) : App.Element :=
  App.renderDisplay (UseWebSocket.isConnected (ws st)) (isAuthenticated st)
    (isDemoMode st) (activeSource st) (UseWebSocket.track (ws st))
    (App.currentMode (keys st)).

(** [{track && <ModeIndicator currentMode={currentMode} ... />}] *)
Definition mode_indicator (st : State) : option (list ModeIndicator.Button) :=
  match UseWebSocket.track (ws st) with
  | Some _ => Some (ModeIndicator.render (App.currentMode (keys st)))
  | None => None
  end.

(** The idle screen that an element stands for, if it is one. *)
Definition idle_view (e : App.Element) : option IdleScreen.View :=
  match e with
  | App.IdleScreen isConnected isAuthenticated activeSource =>
      Some (IdleScreen.render isConnected isAuthenticated (Some activeSource))
  | _ => None
  end.

(** The socket messages of a batch, as events. *)
Definition batch_events (batch : list (option WSMessage)) : list Event :=
  SocketMessage <$> batch.

(** A message that carries progress or a track, or that failed to parse. *)
Definition carries_no_mode (parsed : option WSMessage) : Prop :=
  match parsed with
  | Some message =>
      msg_type message = progress_update \/ msg_type message = track_update
  | None => True
  end.

(** The events that come from the user's keyboard or touch screen. *)
Definition user_event (e : Event) : bool :=
  match e with
  | KeyDown _ | ModeClick _ => true
  | _ => false
  end.

End AppShell.

(** ** components/AlbumArtDisplay.tsx: the time labels *)

Module TimeLabel.

(** [n.toString()] for an integer. *)
Definition toString (n : Z) : string :=
  NilEmpty.string_of_int (Z.to_int n).

(** [s.padStart(targetLength, padString)] with a one-character pad. *)
Definition padStart (targetLength : nat) (pad : Ascii.ascii) (s : string) : string :=
  Nat.iter (targetLength - String.length s) (String pad) s.

(** [formatTime]: [`${mins}:${secs.toString().padStart(2, '0')}`] with the
    minutes and seconds of [AlbumArtDisplay.formatTime]. *)
Definition formatTime (ms : Z) : string :=
  let (mins, secs) := AlbumArtDisplay.formatTime ms in
  toString mins +:+ ":" +:+ padStart 2 "0"%char (toString secs).

(** The seconds from 0 to 59. *)
Definition seconds_of_minute : list Z := Z.of_nat <$> seq 0 60.

End TimeLabel.

(** ** components/LyricsDisplay.tsx *)

Module LyricsDisplay.

(** The line feed that ['\n'] denotes. *)
Definition newline : Ascii.ascii := Ascii.ascii_of_nat 10.

(** The two bytes of the no-break space ['\u00A0'] in UTF-8. *)
Definition nbsp : string :=
  String (Ascii.ascii_of_nat 194) (String (Ascii.ascii_of_nat 160) EmptyString).

(** [const lyricsLines = track.lyrics?.split('\n') || []]: an array is
    truthy, so the empty array stands in for [undefined] only. *)
Definition lyricsLines (track : TrackInfo) : list string :=
  match lyrics track with
  | Some text => UseColorExtraction.split newline text
  | None => []
  end.

(** The right-hand side of the display. *)
Inductive Panel : Set :=
  | Lines (paragraphs : list string)
  | NoLyricsAvailable.

(** [track.lyrics ? lyricsLines.map(line => line || '\u00A0') : ...] *)
Definition panel (track : TrackInfo) : Panel :=
  if Truthy.truthy (lyrics track)
  then Lines ((fun line => UseColorExtraction.or_else (Some line) nbsp)
                <$> lyricsLines track)
  else NoLyricsAvailable.

(** [lines.join(sep)], the inverse the properties are stated with. *)
Fixpoint join (sep : Ascii.ascii) (lines : list string) : string :=
  match lines with
  | [] => EmptyString
  | [l] => l
  | l :: rest => l +:+ String sep (join sep rest)
  end.

(** The number of occurrences of a character in a string. *)
Fixpoint occurrences_of (c : Ascii.ascii) (s : string) : nat :=
  match s with
  | EmptyString => 0
  | String a s' => (if decide (a = c) then 1 else 0) + occurrences_of c s'
  end.

(** "Song X" with the given lyrics attached. *)
Definition with_lyrics (text : string) : TrackInfo :=
  {| track_id := track_id UseWebSocket.song_x;
     title := title UseWebSocket.song_x;
     artist := artist UseWebSocket.song_x;
     album := album UseWebSocket.song_x;
     album_art_url := album_art_url UseWebSocket.song_x;
     album_art_colors := album_art_colors UseWebSocket.song_x;
     duration_ms := duration_ms UseWebSocket.song_x;
     progress_ms := progress_ms UseWebSocket.song_x;
     is_playing := is_playing UseWebSocket.song_x;
     source := source UseWebSocket.song_x;
     release_year := release_year UseWebSocket.song_x;
     genre := genre UseWebSocket.song_x;
     lyrics := Some text;
     artist_image_url := artist_image_url UseWebSocket.song_x;
     artist_bio := artist_bio UseWebSocket.song_x |}.

(** Two lines of text with an empty line between them. *)
Definition two_verses : string :=
  "la la" +:+ String newline (String newline "na na").

End LyricsDisplay.

(** ** components/ArtistInfoDisplay.tsx *)

Module ArtistInfoDisplay.

(** [track.artist_image_url || track.album_art_url]: the argument of
    [useColorExtraction], the condition and the [src] of the background
    image. *)
Definition backdrop (track : TrackInfo) : option string :=
  Truthy.or (artist_image_url track) (album_art_url track).

(** [track.artist_image_url || track.album_art_url || '/placeholder-artist.png'] *)
Definition portrait (track : TrackInfo) : option string :=
  Truthy.or (backdrop track) (Some "/placeholder-artist.png").

(** "Song X" with the given artist image and album art. *)
Definition with_images (artist_image album_art : option string) : TrackInfo :=
  {| track_id := track_id UseWebSocket.song_x;
     title := title UseWebSocket.song_x;
     artist := artist UseWebSocket.song_x;
     album := album UseWebSocket.song_x;
     album_art_url := album_art;
     album_art_colors := album_art_colors UseWebSocket.song_x;
     duration_ms := duration_ms UseWebSocket.song_x;
     progress_ms := progress_ms UseWebSocket.song_x;
     is_playing := is_playing UseWebSocket.song_x;
     source := source UseWebSocket.song_x;
     release_year := release_year UseWebSocket.song_x;
     genre := genre UseWebSocket.song_x;
     lyrics := lyrics UseWebSocket.song_x;
     artist_image_url := artist_image;
     artist_bio := artist_bio UseWebSocket.song_x |}.

End ArtistInfoDisplay.

(** ** components/VisualizerDisplay.tsx *)

Module VisualizerDisplay.

(** The [bars] cell and the number of calls of [Math.random] so far.  The
    random numbers are given by [random], the sequence of results of
    [Math.random()]; heights are embedded in [Q]. *)
Record State : Set := mkState {
  bars : list Q;
  drawn : nat
}.

(** [useState<number[]>(Array(32).fill(0.3))] *)
Definition initial : State :=
  {| bars := replicate 32 (3 # 10)%Q; drawn := 0%nat |}.

(** [prev => prev.map(() => 0.2 + Math.random() * 0.8)]: one call per bar,
    from left to right. *)
Definition redraw (random : nat -> Q) (st : State) : State :=
  {| bars := imap (fun i _ => ((2 # 10) + random (drawn st + i)%nat * (8 # 10))%Q)
                  (bars st);
     drawn := (drawn st + length (bars st))%nat |}.

(** One period of 100 ms.  The interval exists only while
    [track.is_playing]: the effect returns before [setInterval] otherwise,
    and its cleanup clears the interval when [is_playing] changes. *)
Definition tick (random : nat -> Q) (is_playing : bool) (st : State) : State :=
  if is_playing then redraw random st else st.

(** The state after a run of periods; each element says whether the track
    was playing during that period. *)
Definition run (random : nat -> Q) (playing : list bool) (st : State) : State :=
  fold_left (fun s p => tick random p s) playing st.



End VisualizerDisplay.

(** ** Vocabulary for the colour extraction *)

Module Pixels.

(** Image data written pixel by pixel: red, green, blue, alpha. *)
Definition RGBA : Set := (Byte.byte * Byte.byte * Byte.byte * Byte.byte)%type.

Definition data (image : list RGBA) : list Byte.byte :=
  image ≫= (fun p => match p with (r, g, b, a) => [r; g; b; a] end).

(** The key of a pixel. *)
Definition key_of (p : RGBA) : string :=
  match p with
  | (r, g, b, _) =>
      UseColorExtraction.color_key (UseColorExtraction.quantize (Some r))
        (UseColorExtraction.quantize (Some g)) (UseColorExtraction.quantize (Some b))
  end.

(** The pixel without its alpha channel. *)
Definition opaque_part (p : RGBA) : Byte.byte * Byte.byte * Byte.byte :=
  match p with
  | (r, g, b, _) => (r, g, b)
  end.

(** The sum of the counts of a map. *)
Definition total (m : UseColorExtraction.CountMap) : N :=
  foldr (fun e acc => (snd e + acc)%N) 0%N m.

(** The quantized value of a channel, as a number. *)
Definition level (c : Byte.byte) : N := ((Byte.to_N c + 16) / 32 * 32)%N.

End Pixels.

(** * Properties *)

(** ** The WebSocket hook *)

Section UseWebSocketProperties.

Import UseWebSocket.

Lemma run_cons (m : WSMessage) (ms : list WSMessage) (st : State) :
  run (m :: ms) st = run ms (onmessage m st).
Proof. reflexivity. Qed.

(** Setting the mode or the connection flag does not touch the track. *)
Lemma track_setMode (m : DisplayMode) (st : State) : track (setMode m st) = track st.
Proof. reflexivity. Qed.

Lemma track_setTrack_if_present (message : WSMessage) (st : State) :
  track (setTrack_if_present message st) = from_option Some (track st) (msg_track message).
Proof. unfold setTrack_if_present. destruct (msg_track message); reflexivity. Qed.

(** One message that respects the invariant keeps the state within bounds. *)
Lemma onmessage_in_bounds (message : WSMessage) (st : State) :
  state_in_bounds st -> message_in_bounds st message ->
  state_in_bounds (onmessage message st).
Proof.
  unfold state_in_bounds, message_in_bounds, onmessage.
  intros Hst Hmsg.
  destruct (msg_type message).
  - destruct (msg_state message) as [s|];
      rewrite ?track_setMode, track_setTrack_if_present;
      destruct (msg_track message) as [t|]; simpl; auto.
  - rewrite track_setTrack_if_present.
    destruct (msg_track message) as [t|]; simpl; auto.
  - simpl. destruct (track st) as [t|] eqn:Ht; simpl; [|exact I].
    unfold in_bounds in *; simpl.
    destruct (msg_progress_ms message) as [p|] eqn:Hp; simpl.
    + apply (Hmsg t p); reflexivity.
    + exact Hst.
  - destruct (msg_mode message); simpl; exact Hst.
Qed.

(** C1, as the claim states it, fails at an explicit input: after a
    [track_update] carrying "Song X" (progress 0 of 200000) and a
    [progress_update] carrying progress 250000, the client's track has
    [progress_ms = 250000 > duration_ms = 200000]; the hook stores the
    received value without clamping it. *)
Lemma client_progress_not_clamped :
  ~ state_in_bounds
      (run [track_update_of song_x; progress_update_of 250000 true] initial).
Proof. unfold state_in_bounds, in_bounds. simpl. lia. Qed.

(** C1 (amended): the hook does not clamp; it preserves the bound.  If the
    state is within bounds and every message of a sequence carries values
    within bounds (a carried track satisfies [0 <= progress_ms <=
    duration_ms]; a carried progress lies between 0 and the duration of the
    client's track at that point), then the state after every prefix of the
    sequence satisfies [0 <= progress_ms <= duration_ms]. *)
Theorem client_bound_preserved (messages : list WSMessage) (st : State) :
  state_in_bounds st ->
  feed_in_bounds st messages ->
  forall k : nat, state_in_bounds (run (take k messages) st).
Proof.
  revert st.
  induction messages as [|m rest IH]; intros st Hst Hfeed k.
  - rewrite take_nil. exact Hst.
  - destruct k as [|k]; [exact Hst|].
    destruct Hfeed as [Hm Hrest].
    rewrite firstn_cons, run_cons.
    apply IH; [|exact Hrest].
    apply onmessage_in_bounds; assumption.
Qed.

Lemma client_bound_preserved_witness :
  state_in_bounds
    (run (take 2 [track_update_of song_x; progress_update_of 4000 true]) initial).
Proof.
  apply (client_bound_preserved
           [track_update_of song_x; progress_update_of 4000 true] initial).
  - exact I.
  - simpl. unfold message_in_bounds, in_bounds. simpl.
    split; [|split; [|exact I]].
    + intros t Ht. injection Ht as <-. simpl. lia.
    + intros t p Ht Hp. injection Ht as <-. injection Hp as <-. simpl. lia.
Defined.

(** C3: for a state with a current track, a [progress_update] message
    changes at most the [progress_ms] and [is_playing] fields of the track
    and leaves every other field, the display mode and the connection flag
    as they were; a [mode_change] message leaves the track (and the
    connection flag) as it was and changes at most the mode. *)
Theorem update_frame (message : WSMessage) (st : State) :
  (forall t, track st = Some t -> msg_type message = progress_update ->
     exists t', track (onmessage message st) = Some t'
                /\ same_except_progress t t'
                /\ mode (onmessage message st) = mode st
                /\ isConnected (onmessage message st) = isConnected st)
  /\ (msg_type message = mode_change ->
        track (onmessage message st) = track st
        /\ isConnected (onmessage message st) = isConnected st
        /\ mode (onmessage message st) = default (mode st) (msg_mode message)).
Proof.
  split.
  - intros t Ht Hty. unfold onmessage. rewrite Hty. simpl. rewrite Ht. simpl.
    eexists. split; [reflexivity|].
    unfold same_except_progress. simpl. repeat split; reflexivity.
  - intros Hty. unfold onmessage. rewrite Hty.
    destruct (msg_mode message); simpl; repeat split; reflexivity.
Qed.

Lemma update_frame_witness :
  (exists t', track (onmessage (progress_update_of 4000 false) playing_song_x) = Some t'
              /\ same_except_progress song_x t'
              /\ mode (onmessage (progress_update_of 4000 false) playing_song_x)
                 = mode playing_song_x
              /\ isConnected (onmessage (progress_update_of 4000 false) playing_song_x)
                 = isConnected playing_song_x)
  /\ (track (onmessage (mode_change_of mode_minimal) playing_song_x)
        = track playing_song_x
      /\ isConnected (onmessage (mode_change_of mode_minimal) playing_song_x)
        = isConnected playing_song_x
      /\ mode (onmessage (mode_change_of mode_minimal) playing_song_x)
        = default (mode playing_song_x) (msg_mode (mode_change_of mode_minimal))).
Proof.
  split.
  - apply (proj1 (update_frame (progress_update_of 4000 false) playing_song_x) song_x);
      reflexivity.
  - apply (proj2 (update_frame (mode_change_of mode_minimal) playing_song_x));
      reflexivity.
Defined.

(** C4, as the claim states it, fails at an explicit input: a client that
    still shows "Song X" (the hook keeps its state across a reconnect) and
    receives [init] with [track: null] keeps "Song X"; its track does not
    become [null]. *)
Lemma init_null_keeps_stale_track :
  onmessage (init_of (Some song_x) mode_lyrics 100) (onopen initial) = playing_song_x
  /\ track (onmessage (init_of None mode_album_art 100) (onopen (onclose playing_song_x)))
     = Some song_x
  /\ track (onmessage (init_of None mode_album_art 100) (onopen (onclose playing_song_x)))
     <> msg_track (init_of None mode_album_art 100).
Proof. split; [reflexivity | split; [reflexivity | discriminate]]. Qed.

(** C4 (amended): processing [init] sets the client's track to the event's
    track when that track is not null and leaves the client's track as it
    was when it is null; the mode becomes the event's [state.mode] when
    [state] is present.  For a client whose track is null, as on the first
    connection, the track after [init] is exactly the event's track, null
    included. *)
Theorem init_replaces_view (message : WSMessage) (st : State) :
  msg_type message = init ->
  (forall t, msg_track message = Some t -> track (onmessage message st) = Some t)
  /\ (msg_track message = None -> track (onmessage message st) = track st)
  /\ (forall s, msg_state message = Some s -> mode (onmessage message st) = ds_mode s)
  /\ (track st = None -> track (onmessage message st) = msg_track message).
Proof.
  intros Hty. unfold onmessage. rewrite Hty. simpl.
  assert (Htrack : forall st',
             st' = match msg_state message with
                   | Some s => setMode (ds_mode s) (setTrack_if_present message st)
                   | None => setTrack_if_present message st
                   end ->
             track st' = from_option Some (track st) (msg_track message)).
  { intros st' ->. destruct (msg_state message);
      rewrite ?track_setMode; apply track_setTrack_if_present. }
  repeat split.
  - intros t Ht. rewrite (Htrack _ eq_refl), Ht. reflexivity.
  - intros Ht. rewrite (Htrack _ eq_refl), Ht. reflexivity.
  - intros s Hs. rewrite Hs. reflexivity.
  - intros Hnull. rewrite (Htrack _ eq_refl), Hnull.
    destruct (msg_track message); reflexivity.
Qed.

Lemma init_replaces_view_witness :
  track (onmessage (init_of (Some song_x) mode_visualizer 80) initial) = Some song_x
  /\ mode (onmessage (init_of (Some song_x) mode_visualizer 80) initial) = mode_visualizer
  /\ track (onmessage (init_of None mode_visualizer 80) initial) = None.
Proof.
  pose proof (init_replaces_view (init_of (Some song_x) mode_visualizer 80) initial eq_refl)
    as (Htrack & _ & Hmode & _).
  pose proof (init_replaces_view (init_of None mode_visualizer 80) initial eq_refl)
    as (_ & _ & _ & Hnull).
  split; [apply Htrack; reflexivity|].
  split; [apply (Hmode _ eq_refl)|].
  apply Hnull. reflexivity.
Defined.

(** C8: a [progress_update] received while the client's track is null
    leaves it null; a [progress_update] that omits [progress_ms] leaves
    the track's [progress_ms] as it was, and one that omits [is_playing]
    leaves [is_playing] as it was. *)
Theorem progress_update_absent_parts (message : WSMessage) (st : State) :
  msg_type message = progress_update ->
  (track st = None -> track (onmessage message st) = None)
  /\ (forall t, track st = Some t ->
        exists t', track (onmessage message st) = Some t'
          /\ (msg_progress_ms message = None -> progress_ms t' = progress_ms t)
          /\ (msg_is_playing message = None -> is_playing t' = is_playing t)
          /\ (forall p, msg_progress_ms message = Some p -> progress_ms t' = p)
          /\ (forall b, msg_is_playing message = Some b -> is_playing t' = b)).
Proof.
  intros Hty. unfold onmessage. rewrite Hty. simpl. split.
  - intros ->. reflexivity.
  - intros t ->. simpl. eexists. split; [reflexivity|]. simpl.
    repeat split.
    + intros ->. reflexivity.
    + intros ->. reflexivity.
    + intros p ->. reflexivity.
    + intros b ->. reflexivity.
Qed.

Lemma progress_update_absent_parts_witness :
  track (onmessage (progress_update_of 4000 true) initial) = None
  /\ exists t',
       track (onmessage
                {| msg_type := progress_update; msg_track := None; msg_state := None;
                   msg_progress_ms := None; msg_is_playing := Some false;
                   msg_mode := None |} playing_song_x) = Some t'
       /\ progress_ms t' = progress_ms song_x
       /\ is_playing t' = false.
Proof.
  split.
  - apply (proj1 (progress_update_absent_parts
                    (progress_update_of 4000 true) initial eq_refl)).
    reflexivity.
  - destruct (proj2 (progress_update_absent_parts
                       {| msg_type := progress_update; msg_track := None;
                          msg_state := None; msg_progress_ms := None;
                          msg_is_playing := Some false; msg_mode := None |}
                       playing_song_x eq_refl) song_x eq_refl)
      as (t' & Ht' & Hprogress & _ & _ & Hplaying).
    exists t'. split; [exact Ht'|].
    split; [apply Hprogress; reflexivity | apply Hplaying; reflexivity].
Defined.

End UseWebSocketProperties.

(** ** The enumerations of types.ts *)


(** ** App.tsx *)

Section AppProperties.

Import App.

(** C7: the display mode takes exactly the five values album_art, lyrics,
    artist_info, visualizer, minimal, and for a non-null track
    [renderDisplay] returns, for each of the five modes, the display
    component of that mode, applied to the track. *)
Theorem renderDisplay_selects_component :
  DisplayMode_literal <$> modes = design_mode_literals
  /\ NoDup (DisplayMode_literal <$> modes)
  /\ (forall m : DisplayMode, In m modes)
  /\ (forall (isConnected isAuthenticated isDemoMode : bool) (activeSource : string)
             (track : TrackInfo),
        let render := renderDisplay isConnected isAuthenticated isDemoMode
                                    activeSource (Some track) in
        render mode_album_art = AlbumArtDisplay track
        /\ render mode_lyrics = LyricsDisplay track
        /\ render mode_artist_info = ArtistInfoDisplay track
        /\ render mode_visualizer = VisualizerDisplay track
        /\ render mode_minimal = MinimalDisplay track).
Proof.
  split; [reflexivity|].
  split; [apply (bool_decide_unpack _); vm_compute; exact I|].
  split; [intros m; destruct m; simpl; auto 10|].
  intros isConnected isAuthenticated isDemoMode activeSource track.
  cbv zeta. repeat split; reflexivity.
Qed.

(** Every mode is found in [modes], at an index between 0 and 4. *)
Lemma indexOf_modes (m : DisplayMode) :
  0 <= indexOf m modes < 5 /\ array_get modes (indexOf m modes) = Some m.
Proof. destruct m; vm_compute; repeat split; congruence. Qed.

(** C9: for every display mode, ArrowRight selects the mode at index
    [(i + 1) mod 5] and ArrowLeft the mode at index [(i - 1 + 5) mod 5] of
    the five-mode list, where [i] is the index of the current mode;
    ArrowRight followed by ArrowLeft gives back the original mode, and so
    does ArrowLeft followed by ArrowRight. *)
Theorem arrow_keys_inverse (st : State) :
  (exists right left_after,
      handleKeyDown "ArrowRight" st = Some right
      /\ array_get modes ((indexOf (currentMode st) modes + 1) mod 5)
         = Some (currentMode right)
      /\ handleKeyDown "ArrowLeft" right = Some left_after
      /\ currentMode left_after = currentMode st)
  /\ (exists left right_after,
         handleKeyDown "ArrowLeft" st = Some left
         /\ array_get modes ((indexOf (currentMode st) modes - 1 + 5) mod 5)
            = Some (currentMode left)
         /\ handleKeyDown "ArrowRight" left = Some right_after
         /\ currentMode right_after = currentMode st).
Proof.
  destruct st as [m requests].
  split; destruct m; do 2 eexists; repeat split; reflexivity.
Qed.

End AppProperties.

(** ** The progress bar of AlbumArtDisplay and MinimalDisplay *)

Lemma checked_div_positive (a : Q) (d : Z) :
  d > 0 -> checked_div a (inject_Z d) = Some (a / inject_Z d)%Q.
Proof.
  intros Hd. unfold checked_div.
  destruct (Qeq_bool (inject_Z d) 0) eqn:E; [|reflexivity].
  apply Qeq_bool_iff in E. unfold Qeq in E. simpl in E. lia.
Qed.

(** C6: in both components the displayed progress is
    [(progress_ms / duration_ms) * 100] when [duration_ms > 0] and [0] when
    [duration_ms = 0], and for no track is a quotient taken with divisor
    zero. *)
Theorem progressPercent_spec (t : TrackInfo) :
  (duration_ms t > 0 ->
     AlbumArtDisplay.progressPercent t
       = Some (inject_Z (progress_ms t) / inject_Z (duration_ms t) * 100)%Q
     /\ MinimalDisplay.progressPercent t
       = Some (inject_Z (progress_ms t) / inject_Z (duration_ms t) * 100)%Q)
  /\ (duration_ms t = 0 ->
        AlbumArtDisplay.progressPercent t = Some 0%Q
        /\ MinimalDisplay.progressPercent t = Some 0%Q)
  /\ AlbumArtDisplay.progressPercent t <> None
  /\ MinimalDisplay.progressPercent t <> None.
Proof.
  unfold AlbumArtDisplay.progressPercent, MinimalDisplay.progressPercent.
  destruct (decide (duration_ms t > 0)) as [Hpos|Hnot].
  - rewrite (checked_div_positive _ _ Hpos). simpl.
    repeat split; try discriminate; lia.
  - repeat split; try discriminate; lia.
Qed.

Lemma progressPercent_spec_witness :
  (AlbumArtDisplay.progressPercent
     (default UseWebSocket.song_x
        (UseWebSocket.progress_updater (UseWebSocket.progress_update_of 4000 true)
           (Some UseWebSocket.song_x)))
   = Some (inject_Z 4000 / inject_Z 200000 * 100)%Q)
  /\ (AlbumArtDisplay.progressPercent vinyl_side_a = Some 0%Q
      /\ MinimalDisplay.progressPercent vinyl_side_a = Some 0%Q)
  /\ (inject_Z 4000 / inject_Z 200000 * 100 == 2)%Q.
Proof.
  split; [|split].
  - apply (proj1 (progressPercent_spec
                    (default UseWebSocket.song_x
                       (UseWebSocket.progress_updater
                          (UseWebSocket.progress_update_of 4000 true)
                          (Some UseWebSocket.song_x))))).
    simpl. lia.
  - apply (proj1 (proj2 (progressPercent_spec vinyl_side_a))). reflexivity.
  - reflexivity.
Defined.

(** ** The colour extraction hook *)

Section UseColorExtractionProperties.

Import UseColorExtraction.

(** *** The stable sort *)

Lemma sort_insert_length {A : Type} (cmp : A -> A -> Z) (e : A) (l : list A) :
  length (sort_insert cmp e l) = S (length l).
Proof.
  induction l as [|h t IH]; simpl; [reflexivity|].
  destruct (decide (cmp h e < 0)); simpl; [rewrite IH|]; reflexivity.
Qed.

Lemma sort_length {A : Type} (cmp : A -> A -> Z) (l : list A) :
  length (sort cmp l) = length l.
Proof.
  induction l as [|h t IH]; simpl; [reflexivity|].
  unfold sort in *. rewrite sort_insert_length, IH. reflexivity.
Qed.

Lemma sort_insert_perm {A : Type} (cmp : A -> A -> Z) (e : A) (l : list A) :
  sort_insert cmp e l ≡ₚ e :: l.
Proof.
  induction l as [|h t IH]; simpl; [reflexivity|].
  destruct (decide (cmp h e < 0)); [|reflexivity].
  rewrite IH. apply Permutation_swap.
Qed.

Lemma sort_perm {A : Type} (cmp : A -> A -> Z) (l : list A) :
  sort cmp l ≡ₚ l.
Proof.
  induction l as [|h t IH]; simpl; [reflexivity|].
  unfold sort in *. rewrite sort_insert_perm, IH. reflexivity.
Qed.

Lemma sort_insert_sorted (e : string * N) (l : list (string * N)) :
  StronglySorted count_desc l -> StronglySorted count_desc (sort_insert by_count_desc e l).
Proof.
  induction 1 as [|h t Hsorted IH Hall]; simpl.
  - repeat constructor.
  - unfold by_count_desc at 1.
    destruct (decide (Z.of_N (snd e) - Z.of_N (snd h) < 0)) as [Hlt|Hge].
    + constructor; [exact IH|].
      rewrite sort_insert_perm. constructor; [|exact Hall].
      unfold count_desc. lia.
    + constructor; [constructor; assumption|].
      assert (Hhe : count_desc e h) by (unfold count_desc; lia).
      constructor; [exact Hhe|].
      eapply Forall_impl; [exact Hall|].
      unfold count_desc in *. intros x Hx. lia.
Qed.

Lemma sort_sorted (l : list (string * N)) :
  StronglySorted count_desc (sort by_count_desc l).
Proof.
  induction l as [|h t IH]; simpl; [constructor|].
  apply sort_insert_sorted. exact IH.
Qed.

(** *** The count map *)

Lemma map_get_set_eq (key : string) (value : N) (m : CountMap) :
  map_get key (map_set key value m) = Some value.
Proof.
  induction m as [|[k v] m IH]; simpl.
  - case_decide; congruence.
  - destruct (decide (k = key)) as [->|Hne]; simpl; case_decide; congruence.
Qed.

Lemma map_get_set_ne (key key' : string) (value : N) (m : CountMap) :
  key <> key' -> map_get key' (map_set key value m) = map_get key' m.
Proof.
  intros Hne. induction m as [|[k v] m IH]; simpl.
  - case_decide; congruence.
  - destruct (decide (k = key)) as [->|Hk]; simpl; repeat case_decide; congruence.
Qed.

(** [set] keeps the keys in place and appends a new key at the end. *)
Lemma map_set_keys_old (key : string) (value : N) (m : CountMap) :
  key ∈ m.*1 -> (map_set key value m).*1 = m.*1.
Proof.
  induction m as [|[k v] m IH]; intros Hin.
  - apply elem_of_nil in Hin. contradiction.
  - cbn [map_set]. destruct (decide (k = key)) as [->|Hne]; [reflexivity|].
    rewrite !fmap_cons. f_equal. apply IH.
    rewrite fmap_cons in Hin. apply elem_of_cons in Hin as [Heq|Hin]; [|exact Hin].
    simpl in Heq. congruence.
Qed.

Lemma map_set_keys_new (key : string) (value : N) (m : CountMap) :
  key ∉ m.*1 -> (map_set key value m).*1 = m.*1 ++ [key].
Proof.
  induction m as [|[k v] m IH]; intros Hout; [reflexivity|].
  rewrite fmap_cons in Hout. apply not_elem_of_cons in Hout as [Hne Hout].
  cbn [map_set]. destruct (decide (k = key)) as [->|_]; [contradiction|].
  rewrite !fmap_cons, IH by exact Hout. reflexivity.
Qed.

Lemma count_key_NoDup (m : CountMap) (key : string) :
  NoDup m.*1 -> NoDup (count_key m key).*1.
Proof.
  intros Hm. unfold count_key.
  destruct (decide (key ∈ m.*1)) as [Hin|Hout].
  - rewrite map_set_keys_old by exact Hin. exact Hm.
  - rewrite map_set_keys_new by exact Hout.
    apply NoDup_app. split; [exact Hm|]. split.
    + intros x Hx Hx'. apply list_elem_of_singleton in Hx'. subst x. contradiction.
    + apply NoDup_singleton.
Qed.

Lemma count_key_keys (m : CountMap) (key x : string) :
  x ∈ (count_key m key).*1 <-> x ∈ m.*1 \/ x = key.
Proof.
  unfold count_key.
  destruct (decide (key ∈ m.*1)) as [Hin|Hout].
  - rewrite map_set_keys_old by exact Hin.
    split; [auto | intros [H| ->]; assumption].
  - rewrite map_set_keys_new by exact Hout.
    rewrite elem_of_app, list_elem_of_singleton. reflexivity.
Qed.

Lemma occurrences_cons (key k : string) (keys : list string) :
  occurrences key (k :: keys)
  = ((if decide (k = key) then 1 else 0) + occurrences key keys)%N.
Proof.
  unfold occurrences. rewrite filter_cons.
  destruct (decide (k = key)); simpl length; lia.
Qed.

(** Counting a list of keys into a map. *)
Lemma fold_count_get (key : string) (keys : list string) (m : CountMap) :
  map_get key (fold_left count_key keys m)
  = if decide (occurrences key keys = 0%N) then map_get key m
    else Some (default 0%N (map_get key m) + occurrences key keys)%N.
Proof.
  revert m. induction keys as [|k keys IH]; intros m; [reflexivity|].
  simpl fold_left. rewrite IH, occurrences_cons. unfold count_key.
  destruct (decide (k = key)) as [->|Hne].
  - rewrite map_get_set_eq. simpl default.
    repeat case_decide; try lia; f_equal; lia.
  - rewrite (map_get_set_ne _ _ _ _ Hne). rewrite N.add_0_l. reflexivity.
Qed.

Lemma fold_count_NoDup (keys : list string) (m : CountMap) :
  NoDup m.*1 -> NoDup (fold_left count_key keys m).*1.
Proof.
  revert m. induction keys as [|k keys IH]; intros m Hm; [exact Hm|].
  simpl. apply IH, count_key_NoDup, Hm.
Qed.

Lemma fold_count_keys (keys : list string) (m : CountMap) (x : string) :
  x ∈ (fold_left count_key keys m).*1 <-> x ∈ m.*1 \/ x ∈ keys.
Proof.
  revert m. induction keys as [|k keys IH]; intros m; simpl.
  - rewrite elem_of_nil. tauto.
  - rewrite IH, count_key_keys, elem_of_cons. tauto.
Qed.

(** The map holds one entry per distinct key, and the entry of a key is the
    number of pixels with that key. *)
Lemma colorCounts_spec (pixels : list Byte.byte) :
  NoDup (colorCounts pixels).*1
  /\ (forall key, key ∈ (colorCounts pixels).*1 <-> key ∈ pixel_keys pixels)
  /\ (forall key count, (key, count) ∈ colorCounts pixels ->
        count = occurrences key (pixel_keys pixels) /\ (0 < count)%N).
Proof.
  unfold colorCounts. split; [|split].
  - apply fold_count_NoDup. constructor.
  - intros key. rewrite fold_count_keys. simpl. rewrite elem_of_nil. tauto.
  - intros key count Hin.
    assert (Hget : map_get key (fold_left count_key (pixel_keys pixels) []) = Some count).
    { assert (Hnd := fold_count_NoDup (pixel_keys pixels) [] (NoDup_nil_2)).
      revert Hin Hnd. generalize (fold_left count_key (pixel_keys pixels) []).
      intros m. induction m as [|[k v] m IHm]; simpl; intros Hin Hnd.
      - apply elem_of_nil in Hin. contradiction.
      - apply NoDup_cons in Hnd as [Hk Hnd].
        apply elem_of_cons in Hin as [Heq|Hin].
        + injection Heq as -> ->. case_decide; congruence.
        + case_decide as Hkey; [|apply IHm; assumption].
          subst k. exfalso. apply Hk.
          apply list_elem_of_fmap. exists (key, count). auto. }
    rewrite fold_count_get in Hget. simpl in Hget.
    destruct (decide (occurrences key (pixel_keys pixels) = 0%N)); [discriminate|].
    injection Hget as <-. split; lia.
Qed.

(** *** Quantized channels and their text *)

Lemma quantize_values (channel : option Byte.byte) :
  quantize channel ∈ quantized_values.
Proof.
  destruct channel as [c|]; [destruct c|];
    apply (bool_decide_unpack _); vm_compute; exact I.
Qed.

(** Each channel is rounded to a multiple of 32, at most 256. *)
Lemma quantize_multiple_of_32 (c : Byte.byte) :
  exists n : N, quantize (Some c) = JNum (32 * n) /\ (n <= 8)%N.
Proof.
  exists ((Byte.to_N c + 16) / 32)%N. split.
  - unfold quantize. f_equal. apply N.mul_comm.
  - pose proof (to_N_bounded c) as Hc.
    apply N.lt_succ_r, N.Div0.div_lt_upper_bound. lia.
Qed.

(** Splitting a key at the commas and reading the parts as numbers gives
    back the three channels: the colour string is the [rgb(...)] text of
    the quantized channels. *)
Lemma rgb_of_entry_color_key (r g b : jsnumber) (count : N) :
  r ∈ quantized_values -> g ∈ quantized_values -> b ∈ quantized_values ->
  rgb_of_entry (color_key r g b, count) = rgb_text r g b.
Proof.
  intros Hr Hg Hb.
  assert (Hall : Forall (fun r => Forall (fun g => Forall (fun b =>
            rgb_of_entry (color_key r g b, count) = rgb_text r g b)
            quantized_values) quantized_values) quantized_values).
  { apply (bool_decide_unpack _). vm_compute. exact I. }
  rewrite Forall_forall in Hall. specialize (Hall r Hr).
  rewrite Forall_forall in Hall. specialize (Hall g Hg).
  rewrite Forall_forall in Hall. exact (Hall b Hb).
Qed.

Lemma pixel_keys_quantized (pixels : list Byte.byte) (key : string) :
  key ∈ pixel_keys pixels ->
  exists r g b, r ∈ quantized_values /\ g ∈ quantized_values /\ b ∈ quantized_values
                /\ key = color_key r g b.
Proof.
  remember (length pixels) as n eqn:Hn.
  revert pixels Hn. induction n as [n IH] using lt_wf_ind. intros pixels Hn Hkey.
  destruct pixels as [|r [|g [|b [|a rest]]]]; cbn [pixel_keys] in Hkey.
  - apply elem_of_nil in Hkey. contradiction.
  - apply list_elem_of_singleton in Hkey.
    eexists _, _, _. repeat split; [..|exact Hkey]; apply quantize_values.
  - apply list_elem_of_singleton in Hkey.
    eexists _, _, _. repeat split; [..|exact Hkey]; apply quantize_values.
  - apply list_elem_of_singleton in Hkey.
    eexists _, _, _. repeat split; [..|exact Hkey]; apply quantize_values.
  - apply elem_of_cons in Hkey as [Hkey|Hkey].
    + eexists _, _, _. repeat split; [..|exact Hkey]; apply quantize_values.
    + apply (IH (length rest) ltac:(subst n; simpl; lia) rest eq_refl Hkey).
Qed.

(** *** The palette *)

Lemma prefix_append (p x : string) : String.prefix p (p +:+ x) = true.
Proof.
  induction p as [|a p IH].
  - destruct x; reflexivity.
  - change (String a p +:+ x) with (String a (p +:+ x)).
    cbn [String.prefix]. destruct (ascii_dec a a); [exact IH | contradiction].
Qed.

Lemma rgb_of_entry_color (entry : string * N) :
  is_color_string (rgb_of_entry entry) = true.
Proof.
  unfold is_color_string, rgb_of_entry.
  rewrite (prefix_append "rgb("). apply orb_true_r.
Qed.

Lemma color_string_nonempty (s : string) :
  is_color_string s = true -> s <> EmptyString.
Proof. intros Hs ->. discriminate Hs. Qed.

Lemma sortedColors_lookup (pixels : list Byte.byte) (i : nat) :
  (i < 6)%nat ->
  sortedColors pixels !! i
  = rgb_of_entry <$> (sort by_count_desc (colorCounts pixels) !! i).
Proof.
  intros Hi. unfold sortedColors.
  rewrite list_lookup_fmap, lookup_take_lt by exact Hi. reflexivity.
Qed.

Lemma or_else_present (s d : string) :
  is_color_string s = true -> or_else (Some s) d = s.
Proof.
  intros Hs. unfold or_else.
  case_decide as Hempty; [|reflexivity].
  apply color_string_nonempty in Hs. contradiction.
Qed.

(** The slot [i] of an extracted palette is the colour of rank [i] when
    there is one, and the default of that slot otherwise. *)
Lemma extracted_slot (pixels : list Byte.byte) (i : nat) :
  (i < 6)%nat ->
  slots (extracted pixels) !! i
  = match sort by_count_desc (colorCounts pixels) !! i with
    | Some entry => Some (rgb_of_entry entry)
    | None => slots defaultPalette !! i
    end.
Proof.
  intros Hi.
  assert (Hslot : forall d, or_else (sortedColors pixels !! i) d
            = match sort by_count_desc (colorCounts pixels) !! i with
              | Some entry => rgb_of_entry entry
              | None => d
              end).
  { intros d. rewrite sortedColors_lookup by exact Hi.
    destruct (sort by_count_desc (colorCounts pixels) !! i) as [entry|];
      [|reflexivity].
    change (rgb_of_entry <$> Some entry) with (Some (rgb_of_entry entry)).
    apply or_else_present, rgb_of_entry_color. }
  destruct i as [|[|[|[|[|[|i]]]]]]; [..|lia];
    cbn [slots extracted lookup list_lookup dominant vibrant muted darkVibrant
         darkMuted lightVibrant];
    rewrite Hslot;
    destruct (sort by_count_desc (colorCounts pixels) !! _); reflexivity.
Qed.

Lemma defaultPalette_well_formed : well_formed defaultPalette.
Proof. unfold well_formed. simpl. repeat constructor. Qed.

Lemma extracted_well_formed (pixels : list Byte.byte) : well_formed (extracted pixels).
Proof.
  unfold well_formed. apply Forall_lookup. intros i s Hs.
  assert (Hi : (i < 6)%nat).
  { apply lookup_lt_Some in Hs. simpl in Hs. exact Hs. }
  rewrite extracted_slot in Hs by exact Hi.
  destruct (sort by_count_desc (colorCounts pixels) !! i) as [entry|].
  - injection Hs as <-. apply rgb_of_entry_color.
  - pose proof defaultPalette_well_formed as Hd.
    unfold well_formed in Hd. rewrite Forall_lookup in Hd. exact (Hd i s Hs).
Qed.

Lemma step_well_formed (e : Event) (palette : ColorPalette) :
  well_formed palette -> well_formed (step e palette).
Proof.
  intros Hp. destruct e as [imageUrl|context2d pixels]; simpl.
  - destruct (falsy_url imageUrl); [apply defaultPalette_well_formed | exact Hp].
  - destruct context2d; [apply extracted_well_formed | exact Hp].
Qed.

Lemma useColorExtraction_snoc (history : list Event) (e : Event) :
  useColorExtraction (history ++ [e]) = step e (useColorExtraction history).
Proof. unfold useColorExtraction. rewrite fold_left_app. reflexivity. Qed.

Lemma useColorExtraction_well_formed (history : list Event) :
  well_formed (useColorExtraction history).
Proof.
  induction history as [|e history IH] using rev_ind.
  - apply defaultPalette_well_formed.
  - rewrite useColorExtraction_snoc. apply step_well_formed, IH.
Qed.

(** The ranking: one entry per distinct quantized colour, with its pixel
    count, in descending order of count. *)
Lemma ranking_spec (pixels : list Byte.byte) :
  let ranked := sort by_count_desc (colorCounts pixels) in
  NoDup ranked.*1
  /\ StronglySorted count_desc ranked
  /\ length ranked = length (colorCounts pixels)
  /\ (forall key count, (key, count) ∈ ranked ->
        count = occurrences key (pixel_keys pixels)
        /\ exists r g b,
             r ∈ quantized_values /\ g ∈ quantized_values /\ b ∈ quantized_values
             /\ key = color_key r g b
             /\ rgb_of_entry (key, count) = rgb_text r g b).
Proof.
  intros ranked. subst ranked.
  destruct (colorCounts_spec pixels) as (Hnodup & Hkeys & Hcounts).
  split; [|split; [|split]].
  - rewrite (sort_perm by_count_desc (colorCounts pixels)). exact Hnodup.
  - apply sort_sorted.
  - apply sort_length.
  - intros key count Hin.
    rewrite (sort_perm by_count_desc (colorCounts pixels)) in Hin.
    split; [apply (Hcounts key count Hin)|].
    assert (Hkey : key ∈ pixel_keys pixels).
    { apply Hkeys. apply list_elem_of_fmap. exists (key, count). auto. }
    destruct (pixel_keys_quantized pixels key Hkey) as (r & g & b & Hr & Hg & Hb & ->).
    exists r, g, b. repeat split; try assumption.
    apply rgb_of_entry_color_key; assumption.
Qed.

Lemma quiet_events_keep_default (later : list Event) :
  Forall (fun e => completes_load e = false) later ->
  fold_left (fun p e => step e p) later defaultPalette = defaultPalette.
Proof.
  induction 1 as [|e later He _ IH]; [reflexivity|].
  simpl. destruct e as [imageUrl|[|] pixels]; simpl in *;
    [destruct (falsy_url imageUrl); exact IH | discriminate He | exact IH].
Qed.

(** C10, as the claim states it, fails at an explicit input: the hook is run
    for "cover.png", then for an undefined URL, and then the image that
    was requested first finishes loading (the effect returns no cleanup).
    The URL is undefined and the palette is not the default palette. *)
Lemma late_load_replaces_default :
  useColorExtraction
    [EffectRun (Some "cover.png"); EffectRun None; ImageLoaded true sample_pixels]
  <> defaultPalette.
Proof. intros H. apply (f_equal dominant) in H. vm_compute in H. discriminate H. Qed.

(** C10 (amended): after any history of effect runs and image loads, the
    six fields of the palette are defined colour strings; an effect run
    with an undefined image URL sets the default palette, and the palette
    stays the default palette as long as no image load completes; and
    after an image load the slot of rank [i] holds the [rgb(...)] string of
    the [i]-th most frequent quantized colour when there is one, and the
    default value of that slot when the image has [i] or fewer distinct
    quantized colours. *)
Theorem useColorExtraction_palette (history : list Event) :
  well_formed (useColorExtraction history)
  /\ length (slots (useColorExtraction history)) = 6%nat
  /\ (forall later : list Event,
        Forall (fun e => completes_load e = false) later ->
        useColorExtraction (history ++ EffectRun None :: later) = defaultPalette)
  /\ forall pixels : list Byte.byte,
       let ranked := sort by_count_desc (colorCounts pixels) in
       let palette := useColorExtraction (history ++ [ImageLoaded true pixels]) in
       (NoDup ranked.*1
        /\ StronglySorted count_desc ranked
        /\ forall key count, (key, count) ∈ ranked ->
             count = occurrences key (pixel_keys pixels)
             /\ exists r g b,
                  r ∈ quantized_values /\ g ∈ quantized_values
                  /\ b ∈ quantized_values
                  /\ key = color_key r g b
                  /\ rgb_of_entry (key, count) = rgb_text r g b)
       /\ forall i : nat, (i < 6)%nat ->
            (forall entry, ranked !! i = Some entry ->
               slots palette !! i = Some (rgb_of_entry entry))
            /\ ((length ranked <= i)%nat ->
                  slots palette !! i = slots defaultPalette !! i).
Proof.
  split; [apply useColorExtraction_well_formed|].
  split; [reflexivity|].
  split.
  { intros later Hquiet. unfold useColorExtraction.
    rewrite fold_left_app. simpl. apply quiet_events_keep_default, Hquiet. }
  intros pixels ranked palette.
  split.
  { destruct (ranking_spec pixels) as (Hnodup & Hsorted & _ & Hentries).
    split; [exact Hnodup|]. split; [exact Hsorted | exact Hentries]. }
  intros i Hi. subst ranked palette.
  rewrite useColorExtraction_snoc. cbn [step].
  rewrite extracted_slot by exact Hi. split.
  - intros entry ->. reflexivity.
  - intros Hfew.
    rewrite (lookup_ge_None_2 (sort by_count_desc (colorCounts pixels)) i);
      [reflexivity | exact Hfew].
Qed.

Lemma useColorExtraction_palette_witness :
  useColorExtraction
    [ImageLoaded true sample_pixels; EffectRun None;
     EffectRun (Some "cover.png"); ImageLoaded false []] = defaultPalette
  /\ slots (useColorExtraction [ImageLoaded true sample_pixels]) !! 0%nat
    = Some "rgb(0, 32, 256)"
  /\ slots (useColorExtraction [ImageLoaded true sample_pixels]) !! 1%nat
    = Some "rgb(32, 32, 32)"
  /\ slots (useColorExtraction [ImageLoaded true sample_pixels]) !! 2%nat
    = Some "#2a2a3e".
Proof.
  destruct (useColorExtraction_palette []) as (_ & _ & _ & Hpixels).
  destruct (Hpixels sample_pixels) as (_ & Hslots).
  split; [|split; [|split]].
  - apply (proj1 (proj2 (proj2
             (useColorExtraction_palette [ImageLoaded true sample_pixels])))
             [EffectRun (Some "cover.png"); ImageLoaded false []]).
    repeat constructor.
  - apply (proj1 (Hslots 0%nat ltac:(lia)) ("0,32,256", 3%N)).
    reflexivity.
  - apply (proj1 (Hslots 1%nat ltac:(lia)) ("32,32,32", 1%N)).
    reflexivity.
  - apply (proj2 (Hslots 2%nat ltac:(lia))).
    simpl. lia.
Defined.

End UseColorExtractionProperties.

(** * Further properties *)

(** ** The WebSocket hook: how messages compose *)

Section UseWebSocketComposition.

Import UseWebSocket.

(** X1: handling the same message twice in a row leaves the state that
    handling it once leaves: a duplicated delivery is harmless. *)
Theorem onmessage_idempotent (message : WSMessage) (st : State) :
  onmessage message (onmessage message st) = onmessage message st.
Proof.
  destruct message as [ty tr ds p b md], st as [c t m].
  destruct ty; unfold onmessage; simpl.
  - destruct tr, ds; reflexivity.
  - destruct tr; reflexivity.
  - destruct t as [t|]; [|reflexivity]. destruct p, b; reflexivity.
  - destruct md; reflexivity.
Qed.

(** X2: of two [progress_update] messages in a row, the second one alone
    decides the state when it carries both fields: dropping the first one
    gives the same state. *)
Theorem last_progress_update_wins (first second : WSMessage) (st : State) :
  msg_type first = progress_update ->
  msg_type second = progress_update ->
  is_Some (msg_progress_ms second) ->
  is_Some (msg_is_playing second) ->
  onmessage second (onmessage first st) = onmessage second st.
Proof.
  intros H1 H2 [p Hp] [b Hb].
  destruct first as [ty1 tr1 ds1 p1 b1 md1], second as [ty2 tr2 ds2 p2 b2 md2].
  simpl in *. subst. destruct st as [c [t|] m]; reflexivity.
Qed.

Lemma last_progress_update_wins_witness :
  onmessage (progress_update_of 8000 false)
    (onmessage (progress_update_of 4000 true) playing_song_x)
  = onmessage (progress_update_of 8000 false) playing_song_x.
Proof.
  apply (last_progress_update_wins (progress_update_of 4000 true)
           (progress_update_of 8000 false) playing_song_x);
    first [reflexivity | eexists; reflexivity].
Defined.

(** X3: a [mode_change] message commutes with a [progress_update] and with
    a [track_update] message: the state does not depend on the order in
    which the two arrive. *)
Theorem mode_change_commutes (change other : WSMessage) (st : State) :
  msg_type change = mode_change ->
  msg_type other = progress_update \/ msg_type other = track_update ->
  onmessage change (onmessage other st) = onmessage other (onmessage change st).
Proof.
  intros Hc Ho.
  destruct change as [ty1 tr1 ds1 p1 b1 md1], other as [ty2 tr2 ds2 p2 b2 md2].
  simpl in *. subst.
  destruct Ho as [-> | ->]; unfold onmessage; simpl;
    destruct md1, tr2; reflexivity.
Qed.

Lemma mode_change_commutes_witness :
  onmessage (mode_change_of mode_minimal)
    (onmessage (progress_update_of 4000 true) playing_song_x)
  = onmessage (progress_update_of 4000 true)
      (onmessage (mode_change_of mode_minimal) playing_song_x).
Proof.
  apply (mode_change_commutes (mode_change_of mode_minimal)
           (progress_update_of 4000 true) playing_song_x).
  - reflexivity.
  - left. reflexivity.
Defined.

Lemma same_except_progress_refl (t : TrackInfo) : same_except_progress t t.
Proof. unfold same_except_progress. repeat split; reflexivity. Qed.

Lemma same_except_progress_trans (a b c : TrackInfo) :
  same_except_progress a b -> same_except_progress b c -> same_except_progress a c.
Proof.
  unfold same_except_progress.
  intros (?&?&?&?&?&?&?&?&?&?&?&?&?) (?&?&?&?&?&?&?&?&?&?&?&?&?).
  repeat split; congruence.
Qed.

Lemma progress_update_step (message : WSMessage) (st : State) (t : TrackInfo) :
  track st = Some t -> msg_type message = progress_update ->
  exists t', track (onmessage message st) = Some t'
             /\ same_except_progress t t'
             /\ mode (onmessage message st) = mode st
             /\ isConnected (onmessage message st) = isConnected st.
Proof.
  intros Ht Hty. unfold onmessage. rewrite Hty. simpl. rewrite Ht. simpl.
  eexists. split; [reflexivity|].
  split; [unfold same_except_progress; simpl; repeat split; reflexivity|].
  split; reflexivity.
Qed.

(** X4: a run of [progress_update] messages, however long, never changes
    the identity of the track: after it the client still has a track, with
    the same id, title, artist, album, artwork, duration, source and
    enrichment fields, and the same mode and connection flag. *)
Theorem progress_run_keeps_track (messages : list WSMessage) (st : State) (t : TrackInfo) :
  Forall (fun m => msg_type m = progress_update) messages ->
  track st = Some t ->
  exists t', track (run messages st) = Some t'
             /\ same_except_progress t t'
             /\ mode (run messages st) = mode st
             /\ isConnected (run messages st) = isConnected st.
Proof.
  intros Hall. revert st t.
  induction Hall as [|m rest Hm _ IH]; intros st t Ht.
  - exists t. split; [exact Ht|]. split; [apply same_except_progress_refl|].
    split; reflexivity.
  - destruct (progress_update_step m st t Ht Hm) as (t1 & Ht1 & Hsame1 & Hmode1 & Hconn1).
    destruct (IH (onmessage m st) t1 Ht1) as (t' & Ht' & Hsame & Hmode & Hconn).
    exists t'. rewrite run_cons. split; [exact Ht'|].
    split; [eapply same_except_progress_trans; eassumption|].
    split; congruence.
Qed.

Lemma progress_run_keeps_track_witness :
  exists t',
    track (run [progress_update_of 4000 true; progress_update_of 250000 false]
               playing_song_x) = Some t'
    /\ title t' = "Song X" /\ duration_ms t' = 200000.
Proof.
  destruct (progress_run_keeps_track
              [progress_update_of 4000 true; progress_update_of 250000 false]
              playing_song_x song_x)
    as (t' & Ht' & Hsame & _).
  - repeat constructor.
  - reflexivity.
  - exists t'. split; [exact Ht'|].
    destruct Hsame as (_ & Htitle & _ & _ & _ & _ & Hduration & _).
    split; [exact Htitle | exact Hduration].
Defined.

End UseWebSocketComposition.

(** ** The App component *)

Section AppShellProperties.

Import AppShell.

Lemma step_keeps_track (e : Event) (st : State) :
  is_Some (UseWebSocket.track (ws st)) ->
  is_Some (UseWebSocket.track (ws (step e st))).
Proof.
  intros [t Ht]. destruct e as [| |parsed| |data| | |key|newMode]; simpl;
    try (eexists; exact Ht).
  - destruct parsed as [m|]; simpl; [|eexists; exact Ht].
    destruct (ws st) as [c tr md]. simpl in Ht. subst tr.
    destruct m as [ty mtr ds p b mmd].
    destruct ty; unfold UseWebSocket.onmessage; simpl.
    + destruct mtr, ds; simpl; eexists; reflexivity.
    + destruct mtr; simpl; eexists; reflexivity.
    + eexists; reflexivity.
    + destruct mmd; simpl; eexists; reflexivity.
  - unfold sync_mode. case_decide; simpl; eexists; exact Ht.
  - destruct (App.handleKeyDown key (keys st)); simpl; eexists; exact Ht.
Qed.

Lemma run_snoc (events : list Event) (e : Event) (st : State) :
  run (events ++ [e]) st = step e (run events st).
Proof. unfold run. rewrite fold_left_app. reflexivity. Qed.

(** X5: once the client has a track, no sequence of events takes it away:
    after any further socket, status, keyboard and touch events the track
    is still set, so the idle screen is never drawn again and the mode
    indicator stays on screen (the hook ignores a null track in [init] and
    [track_update], and nothing else writes the track). *)
Theorem track_never_cleared (events : list Event) (st : State) :
  is_Some (UseWebSocket.track (ws st)) ->
  is_Some (UseWebSocket.track (ws (run events st)))
  /\ idle_view (display (run events st)) = None
  /\ is_Some (mode_indicator (run events st)).
Proof.
  intros Hst.
  assert (Htrack : is_Some (UseWebSocket.track (ws (run events st)))).
  { induction events as [|e events IH] using rev_ind; [exact Hst|].
    rewrite run_snoc. apply step_keeps_track, IH. }
  split; [exact Htrack|]. destruct Htrack as [t Ht].
  unfold display, mode_indicator. rewrite Ht. split.
  - destruct (App.currentMode (keys (run events st))); reflexivity.
  - eexists; reflexivity.
Qed.

Lemma track_never_cleared_witness :
  idle_view
    (display
       (run [SocketMessage (Some (UseWebSocket.track_update_of UseWebSocket.song_x));
             SocketMessage (Some (UseWebSocket.init_of None mode_album_art 100));
             SocketClose]
            initial)) = None.
Proof.
  apply (track_never_cleared
           [SocketMessage (Some (UseWebSocket.init_of None mode_album_art 100));
            SocketClose]
           (step (SocketMessage (Some (UseWebSocket.track_update_of UseWebSocket.song_x)))
                 initial)).
  eexists. reflexivity.
Defined.

(** X6: the keyboard handler never selects an undefined mode; five presses
    of ArrowRight, or of ArrowLeft, come back to the mode they started
    from; and from every mode every other mode is reached by at most four
    presses of ArrowRight. *)
Theorem arrow_cycle (st : State) :
  (forall key k, is_Some (App.handleKeyDown key k))
  /\ App.currentMode (keys (run (replicate 5 (KeyDown "ArrowRight")) st))
     = App.currentMode (keys st)
  /\ App.currentMode (keys (run (replicate 5 (KeyDown "ArrowLeft")) st))
     = App.currentMode (keys st)
  /\ (forall target : DisplayMode,
        exists n : nat, (n < 5)%nat
          /\ App.currentMode (keys (run (replicate n (KeyDown "ArrowRight")) st))
             = target).
Proof.
  split; [|split; [|split]].
  - intros key [m posted]. unfold App.handleKeyDown.
    repeat case_decide; destruct m; simpl; eexists; reflexivity.
  - destruct st as [w r a d s [m posted]]. destruct m; reflexivity.
  - destruct st as [w r a d s [m posted]]. destruct m; reflexivity.
  - intros target. destruct st as [w r a d s [m posted]].
    destruct m, target;
      first [ exists 0%nat; split; [lia | reflexivity]
            | exists 1%nat; split; [lia | reflexivity]
            | exists 2%nat; split; [lia | reflexivity]
            | exists 3%nat; split; [lia | reflexivity]
            | exists 4%nat; split; [lia | reflexivity] ].
Qed.

(** X7: every change of mode made from the keyboard or the mode buttons
    is reported to the server, once, with the literal of the mode that is
    now current; the space key posts one play/pause request and keeps the
    mode; any other key changes nothing and posts nothing. *)
Theorem key_requests (key : string) (k : App.State) :
  exists k', App.handleKeyDown key k = Some k'
    /\ (key = "ArrowRight" \/ key = "ArrowLeft" ->
          App.posted k'
          = App.posted k
            ++ ["/api/display/mode/" +:+ DisplayMode_literal (App.currentMode k')])
    /\ (key = " " ->
          App.currentMode k' = App.currentMode k
          /\ App.posted k' = App.posted k ++ ["/api/control/play-pause"])
    /\ (key <> "ArrowRight" -> key <> "ArrowLeft" -> key <> " " -> k' = k)
    /\ (forall newMode,
          App.posted (App.handleModeChange newMode k)
          = App.posted k ++ ["/api/display/mode/" +:+ DisplayMode_literal newMode]
          /\ App.currentMode (App.handleModeChange newMode k) = newMode).
Proof.
  destruct k as [m posted]. unfold App.handleKeyDown.
  destruct (decide (key = "ArrowRight")) as [->|Hr].
  - destruct m; simpl; eexists; (split; [reflexivity|]);
      (split; [intros _; reflexivity|]);
      (split; [intros Hs; discriminate Hs|]);
      (split; [intros H; contradiction|]); intros newMode; split; reflexivity.
  - destruct (decide (key = "ArrowLeft")) as [->|Hl].
    + destruct m; simpl; eexists; (split; [reflexivity|]);
        (split; [intros _; reflexivity|]);
        (split; [intros Hs; discriminate Hs|]);
        (split; [intros _ H; contradiction|]); intros newMode; split; reflexivity.
    + destruct (decide (key = " ")) as [->|Hs]; simpl; eexists;
        (split; [reflexivity|]).
      * split; [intros [H|H]; discriminate H|].
        split; [intros _; split; reflexivity|].
        split; [intros _ _ H; contradiction|]. intros newMode; split; reflexivity.
      * split; [intros [H|H]; contradiction|].
        split; [intros H; contradiction|].
        split; [intros _ _ _; reflexivity|]. intros newMode; split; reflexivity.
Qed.

Lemma key_requests_witness :
  exists k',
    App.handleKeyDown "ArrowRight"
      {| App.currentMode := mode_minimal; App.posted := [] |} = Some k'
    /\ App.posted k' = ["/api/display/mode/album_art"].
Proof.
  destruct (key_requests "ArrowRight"
              {| App.currentMode := mode_minimal; App.posted := [] |})
    as (k' & Hk & Harrow & _).
  exists k'. split; [exact Hk|].
  rewrite (Harrow (or_introl eq_refl)).
  injection Hk as <-. reflexivity.
Defined.

Lemma step_server_posts_nothing (e : Event) (st : State) :
  user_event e = false -> App.posted (keys (step e st)) = App.posted (keys st).
Proof.
  destruct e; simpl; intros He; try discriminate He; try reflexivity.
  unfold sync_mode. case_decide; reflexivity.
Qed.

(** X8: the client posts a request only for a key press or a click on a
    mode button: socket messages, open and close events and the answers
    of the status request never add a request, so a mode change that
    comes from the server is not sent back to it. *)
Theorem server_events_post_nothing (events : list Event) (st : State) :
  Forall (fun e => user_event e = false) events ->
  App.posted (keys (run events st)) = App.posted (keys st).
Proof.
  intros Hall. revert st.
  induction Hall as [|e events He _ IH]; intros st; [reflexivity|].
  simpl. unfold run in IH. rewrite IH. apply step_server_posts_nothing, He.
Qed.

Lemma server_events_post_nothing_witness :
  App.posted
    (keys (run [SocketOpen;
                SocketMessage (Some (UseWebSocket.mode_change_of mode_lyrics));
                StatusFailed] initial)) = [].
Proof.
  apply (server_events_post_nothing
           [SocketOpen; SocketMessage (Some (UseWebSocket.mode_change_of mode_lyrics));
            StatusFailed] initial).
  repeat constructor.
Defined.

Lemma batch_run (batch : list (option WSMessage)) (st : State) :
  run (batch_events batch) st
  = with_ws (fold_left (fun w m => UseWebSocket.onmessage_event m w) batch (ws st)) st.
Proof.
  revert st. induction batch as [|m batch IH]; intros st.
  - destruct st; reflexivity.
  - unfold batch_events, run in *. rewrite fmap_cons. simpl fold_left.
    rewrite IH. reflexivity.
Qed.

Lemma mode_after_quiet_batch (batch : list (option WSMessage)) (w : UseWebSocket.State) :
  Forall carries_no_mode batch ->
  UseWebSocket.mode (fold_left (fun w m => UseWebSocket.onmessage_event m w) batch w)
  = UseWebSocket.mode w.
Proof.
  intros Hall. revert w.
  induction Hall as [|m batch Hm _ IH]; intros w; [reflexivity|].
  simpl fold_left. rewrite IH.
  destruct m as [[ty tr ds p b md]|]; [|reflexivity].
  simpl in Hm. destruct Hm as [-> | ->]; unfold UseWebSocket.onmessage; simpl.
  - reflexivity.
  - destruct tr; reflexivity.
Qed.

(** X9: the displayed mode follows the hook's mode from render to render.
    After a batch of socket messages and the render that follows it, the
    hook's state is the state after the whole batch; the displayed mode is
    the hook's mode when that differs from the mode the render before saw
    (the last [mode_change] of the batch decides), and it is left as it
    was, a local choice included, when the hook's mode is the one the
    render before saw: the messages repeated it, or changed it and changed
    it back.  A batch of [progress_update] and [track_update] messages
    handled after a render never changes the displayed mode. *)
Theorem displayed_mode_follows_socket (batch : list (option WSMessage)) (st : State) :
  let st' := step Render (run (batch_events batch) st) in
  ws st' = fold_left (fun w m => UseWebSocket.onmessage_event m w) batch (ws st)
  /\ rendered_mode st' = UseWebSocket.mode (ws st')
  /\ (UseWebSocket.mode (ws st') <> rendered_mode st ->
        App.currentMode (keys st') = UseWebSocket.mode (ws st'))
  /\ (UseWebSocket.mode (ws st') = rendered_mode st -> keys st' = keys st)
  /\ (Forall carries_no_mode batch ->
        rendered_mode st = UseWebSocket.mode (ws st) -> keys st' = keys st).
Proof.
  cbv zeta. rewrite batch_run.
  set (w := fold_left (fun w m => UseWebSocket.onmessage_event m w) batch (ws st)).
  assert (Hcases :
    let st' := step Render (with_ws w st) in
    ws st' = w
    /\ rendered_mode st' = UseWebSocket.mode w
    /\ (UseWebSocket.mode w <> rendered_mode st ->
          App.currentMode (keys st') = UseWebSocket.mode w)
    /\ (UseWebSocket.mode w = rendered_mode st -> keys st' = keys st)).
  { cbv zeta. simpl. unfold sync_mode. simpl.
    case_decide as Hm; simpl; repeat split; try congruence; intros; contradiction. }
  cbv zeta in Hcases. destruct Hcases as (Hws & Hrendered & Hdiffer & Hsame).
  rewrite Hws. repeat split; try assumption.
  intros Hquiet Hsynced. apply Hsame.
  subst w. rewrite mode_after_quiet_batch by exact Hquiet. congruence.
Qed.

Lemma displayed_mode_follows_socket_witness :
  App.currentMode
    (keys (step Render
             (run (batch_events [Some (UseWebSocket.mode_change_of mode_lyrics);
                                 Some (UseWebSocket.mode_change_of mode_minimal)])
                  initial))) = mode_minimal
  /\ keys (step Render
             (run (batch_events [Some (UseWebSocket.mode_change_of mode_visualizer);
                                 Some (UseWebSocket.mode_change_of mode_album_art)])
                  (step (KeyDown "ArrowRight") initial)))
     = keys (step (KeyDown "ArrowRight") initial)
  /\ keys (step Render
             (run (batch_events [Some (UseWebSocket.progress_update_of 4000 true); None])
                  (step (KeyDown "ArrowRight") initial)))
     = keys (step (KeyDown "ArrowRight") initial).
Proof.
  split; [|split].
  - apply (proj1 (proj2 (proj2 (displayed_mode_follows_socket
             [Some (UseWebSocket.mode_change_of mode_lyrics);
              Some (UseWebSocket.mode_change_of mode_minimal)] initial)))).
    discriminate.
  - apply (proj1 (proj2 (proj2 (proj2 (displayed_mode_follows_socket
             [Some (UseWebSocket.mode_change_of mode_visualizer);
              Some (UseWebSocket.mode_change_of mode_album_art)]
             (step (KeyDown "ArrowRight") initial)))))).
    reflexivity.
  - apply (proj2 (proj2 (proj2 (proj2 (displayed_mode_follows_socket
             [Some (UseWebSocket.progress_update_of 4000 true); None]
             (step (KeyDown "ArrowRight") initial)))))).
    + repeat constructor.
    + reflexivity.
Defined.

(** X10: the idle screen is drawn exactly when the client has no track,
    and the mode indicator exactly when it has one.  On the idle screen
    the button that connects to Spotify is offered exactly when the socket
    is connected and the client is neither authenticated nor in demo mode;
    while the socket is not connected the screen says that it is
    connecting, whatever the authentication state. *)
Theorem idle_screen_contents (st : State) :
  (UseWebSocket.track (ws st) = None <-> is_Some (idle_view (display st)))
  /\ (UseWebSocket.track (ws st) = None <-> mode_indicator st = None)
  /\ (forall v, idle_view (display st) = Some v ->
        (IdleScreen.content v = IdleScreen.ConnectSpotifyButton
           <-> UseWebSocket.isConnected (ws st) = true
               /\ isAuthenticated st = false /\ isDemoMode st = false)
        /\ (IdleScreen.content v = IdleScreen.ConnectingToServer
              <-> UseWebSocket.isConnected (ws st) = false)
        /\ IdleScreen.heading v = IdleScreen.getSourceLabel (Some (activeSource st))).
Proof.
  destruct st as [[c t m] r a d s [cm posted]].
  unfold display, mode_indicator. simpl. split; [|split].
  - destruct t as [t|]; simpl.
    + split; [discriminate|]. destruct cm; simpl; intros [v Hv]; discriminate Hv.
    + split; [eexists; reflexivity | reflexivity].
  - destruct t; split; intros H; try discriminate H; reflexivity.
  - intros v Hv. destruct t as [t|]; simpl in Hv.
    + destruct cm; discriminate Hv.
    + injection Hv as <-. unfold IdleScreen.render, IdleScreen.body. simpl.
      split; [|split; [|reflexivity]].
      * destruct c, a, d; simpl; split; intros H; try discriminate H;
          try (destruct H as (H1 & H2 & H3); discriminate); auto.
      * destruct c, a, d; simpl; split; intros H; try discriminate H; reflexivity.
Qed.

Lemma idle_screen_contents_witness :
  IdleScreen.content
    (IdleScreen.render true (false || false) (Some "demo"))
  = IdleScreen.ConnectSpotifyButton.
Proof.
  apply (proj2 (proj2 (idle_screen_contents (step SocketOpen initial)))
           (IdleScreen.render true (false || false) (Some "demo")) eq_refl).
  repeat split.
Defined.

Lemma step_activeSource (e : Event) (st : State) :
  activeSource st <> EmptyString -> activeSource (step e st) <> EmptyString.
Proof.
  intros Hst. destruct e as [| |parsed| |data| | |key|newMode]; simpl; try exact Hst.
  - unfold sync_mode. case_decide; exact Hst.
  - unfold UseColorExtraction.or_else.
    destruct (data_active_source data) as [s|]; [|discriminate].
    case_decide; [discriminate | assumption].
  - destruct (App.handleKeyDown key (keys st)); exact Hst.
Qed.

(** X11: the active source shown on the idle screen is never the empty
    string, in any state the component can reach; and when the status
    answer has no active source, or an empty one, the idle screen is
    headed "Demo Mode". *)
Theorem active_source_defaults_to_demo (events : list Event) :
  activeSource (run events initial) <> EmptyString
  /\ forall data st,
       Truthy.truthy (data_active_source data) = false ->
       activeSource (step (StatusFetched data) st) = "demo"
       /\ IdleScreen.getSourceLabel
            (Some (activeSource (step (StatusFetched data) st))) = "Demo Mode".
Proof.
  split.
  - induction events as [|e events IH] using rev_ind; [discriminate|].
    rewrite run_snoc. apply step_activeSource, IH.
  - intros data st Hfalsy. simpl. unfold UseColorExtraction.or_else.
    destruct (data_active_source data) as [s|]; simpl in *.
    + case_decide as Hs; [split; reflexivity|].
      apply negb_false_iff, bool_decide_eq_true in Hfalsy. contradiction.
    + split; reflexivity.
Qed.

Lemma active_source_defaults_to_demo_witness :
  IdleScreen.getSourceLabel
    (Some (activeSource
             (step (StatusFetched {| data_spotify := false; data_demo_mode := true;
                                     data_active_source := Some EmptyString |})
                   initial))) = "Demo Mode".
Proof.
  apply (proj2 (active_source_defaults_to_demo [])
           {| data_spotify := false; data_demo_mode := true;
              data_active_source := Some EmptyString |} initial).
  reflexivity.
Defined.

End AppShellProperties.

(** ** The mode indicator *)

(** X12: for every current mode the indicator draws five buttons of which
    exactly one is marked as current, the one of the current mode; the
    buttons stand in the order in which the arrow keys cycle; and a click
    on a button makes that button the one marked as current. *)
Theorem mode_indicator_buttons (currentMode : DisplayMode) :
  ModeIndicator.button_click <$> ModeIndicator.render currentMode = App.modes
  /\ ModeIndicator.button_click
       <$> filter (fun b => ModeIndicator.button_current b = true)
                  (ModeIndicator.render currentMode)
     = [currentMode]
  /\ NoDup (ModeIndicator.button_title <$> ModeIndicator.render currentMode)
  /\ forall (k : App.State) (b : ModeIndicator.Button),
       b ∈ ModeIndicator.render currentMode ->
       filter (fun b' => ModeIndicator.button_current b' = true)
              (ModeIndicator.render
                 (App.currentMode (App.handleModeChange (ModeIndicator.button_click b) k)))
       = [ {| ModeIndicator.button_title := ModeIndicator.button_title b;
              ModeIndicator.button_current := true;
              ModeIndicator.button_click := ModeIndicator.button_click b |} ].
Proof.
  split; [destruct currentMode; reflexivity|].
  split; [destruct currentMode; reflexivity|].
  split; [destruct currentMode; apply (bool_decide_unpack _); vm_compute; exact I|].
  intros k b Hb. simpl.
  assert (Hcases : Forall (fun b =>
            filter (fun b' => ModeIndicator.button_current b' = true)
                   (ModeIndicator.render (ModeIndicator.button_click b))
            = [ {| ModeIndicator.button_title := ModeIndicator.button_title b;
                   ModeIndicator.button_current := true;
                   ModeIndicator.button_click := ModeIndicator.button_click b |} ])
            (ModeIndicator.render currentMode)).
  { destruct currentMode; repeat constructor. }
  rewrite Forall_forall in Hcases. exact (Hcases b Hb).
Qed.

Lemma mode_indicator_buttons_witness :
  filter (fun b' => ModeIndicator.button_current b' = true)
         (ModeIndicator.render
            (App.currentMode
               (App.handleModeChange mode_lyrics
                  {| App.currentMode := mode_album_art; App.posted := [] |})))
  = [ {| ModeIndicator.button_title := "Lyrics";
         ModeIndicator.button_current := true;
         ModeIndicator.button_click := mode_lyrics |} ].
Proof.
  apply (proj2 (proj2 (proj2 (mode_indicator_buttons mode_album_art)))
           {| App.currentMode := mode_album_art; App.posted := [] |}
           {| ModeIndicator.button_title := "Lyrics";
              ModeIndicator.button_current := false;
              ModeIndicator.button_click := mode_lyrics |}).
  apply (list_elem_of_lookup_2 _ 1%nat). reflexivity.
Defined.

(** ** The progress bar and the time labels *)

Lemma percent_of_fraction (p d : Z) :
  d > 0 ->
  (0 <= p -> (0 <= inject_Z p / inject_Z d * 100)%Q)
  /\ (p <= d -> (inject_Z p / inject_Z d * 100 <= 100)%Q)
  /\ (d < p -> (100 < inject_Z p / inject_Z d * 100)%Q).
Proof.
  intros Hd. destruct d as [|d|d]; try lia.
  unfold Qle, Qlt, Qdiv, Qmult, Qinv, inject_Z. simpl.
  repeat split; intros; nia.
Qed.

(** X13: for a track with a positive duration whose progress is within
    [0 <= progress_ms <= duration_ms], the progress bar of both components
    is between 0 and 100 percent; the components do not clamp, so a
    progress beyond the duration gives a bar of more than 100 percent. *)
Theorem progressPercent_range (t : TrackInfo) :
  duration_ms t > 0 ->
  exists q, AlbumArtDisplay.progressPercent t = Some q
    /\ MinimalDisplay.progressPercent t = Some q
    /\ (UseWebSocket.in_bounds t -> (0 <= q <= 100)%Q)
    /\ (duration_ms t < progress_ms t -> (100 < q)%Q).
Proof.
  intros Hd.
  exists (inject_Z (progress_ms t) / inject_Z (duration_ms t) * 100)%Q.
  unfold AlbumArtDisplay.progressPercent, MinimalDisplay.progressPercent.
  destruct (decide (duration_ms t > 0)) as [_|Hn]; [|contradiction].
  rewrite (checked_div_positive _ _ Hd). simpl.
  destruct (percent_of_fraction (progress_ms t) (duration_ms t) Hd) as (H0 & H100 & Hover).
  split; [reflexivity|]. split; [reflexivity|]. split.
  - intros [Hlo Hhi]. split; [apply H0, Hlo | apply H100, Hhi].
  - exact Hover.
Qed.

Lemma progressPercent_range_witness :
  exists q, AlbumArtDisplay.progressPercent UseWebSocket.song_x = Some q
            /\ (0 <= q <= 100)%Q.
Proof.
  destruct (progressPercent_range UseWebSocket.song_x) as (q & Hq & _ & Hrange & _).
  - reflexivity.
  - exists q. split; [exact Hq|]. apply Hrange.
    unfold UseWebSocket.in_bounds. simpl. lia.
Defined.

Section TimeLabelProperties.

Import TimeLabel.

Lemma seconds_two_characters (secs : Z) :
  0 <= secs < 60 ->
  String.length (padStart 2 "0"%char (toString secs)) = 2%nat
  /\ (secs < 10 -> padStart 2 "0"%char (toString secs) = String "0"%char (toString secs)).
Proof.
  intros Hs.
  assert (Hall : Forall (fun s =>
            String.length (padStart 2 "0"%char (toString s)) = 2%nat
            /\ (s < 10 -> padStart 2 "0"%char (toString s)
                          = String "0"%char (toString s)))
            seconds_of_minute).
  { apply (bool_decide_unpack _). vm_compute. exact I. }
  rewrite Forall_forall in Hall. apply Hall.
  unfold seconds_of_minute. apply list_elem_of_fmap.
  exists (Z.to_nat secs). split; [lia|].
  apply list_elem_of_In, in_seq. lia.
Qed.

(** X14: for a time that is not negative, [formatTime] prints the whole
    minutes, a colon and the seconds of the minute in exactly two
    characters, with a leading zero below ten; minutes are not folded into
    hours. *)
Theorem formatTime_layout (ms : Z) :
  0 <= ms ->
  let secs := (ms / 1000) mod 60 in
  let mins := ms / 1000 / 60 in
  0 <= secs < 60
  /\ ms / 1000 = 60 * mins + secs
  /\ formatTime ms
     = toString mins +:+ ":" +:+ padStart 2 "0"%char (toString secs)
  /\ String.length (padStart 2 "0"%char (toString secs)) = 2%nat
  /\ (secs < 10 -> padStart 2 "0"%char (toString secs)
                   = String "0"%char (toString secs)).
Proof.
  intros Hms secs mins.
  assert (Hsecs : 0 <= secs < 60) by (apply Z.mod_pos_bound; lia).
  split; [exact Hsecs|].
  split; [subst secs mins; pose proof (Z.div_mod (ms / 1000) 60); lia|].
  split.
  - unfold formatTime, AlbumArtDisplay.formatTime.
    rewrite Z.rem_mod_nonneg by (try apply Z.div_pos; lia). reflexivity.
  - apply seconds_two_characters, Hsecs.
Qed.

Lemma formatTime_layout_witness :
  formatTime 200000 = "3:20" /\ formatTime 65000 = "1:05".
Proof.
  split.
  - apply (proj1 (proj2 (proj2 (formatTime_layout 200000 ltac:(lia))))).
  - apply (proj1 (proj2 (proj2 (formatTime_layout 65000 ltac:(lia))))).
Defined.

End TimeLabelProperties.

(** ** The lyrics display *)

Section LyricsDisplayProperties.

Import LyricsDisplay.

Lemma split_cons (sep : Ascii.ascii) (s : string) :
  exists h t, UseColorExtraction.split sep s = h :: t.
Proof.
  destruct s as [|c s]; simpl; [eexists _, _; reflexivity|].
  case_decide; [eexists _, _; reflexivity|].
  destruct (UseColorExtraction.split sep s); eexists _, _; reflexivity.
Qed.

Lemma join_cons_cons (sep : Ascii.ascii) (l h : string) (t : list string) :
  join sep (l :: h :: t) = l +:+ String sep (join sep (h :: t)).
Proof. reflexivity. Qed.

Lemma join_cons_char (sep c : Ascii.ascii) (h : string) (t : list string) :
  join sep (String c h :: t) = String c (join sep (h :: t)).
Proof. destruct t; reflexivity. Qed.

Lemma join_split (sep : Ascii.ascii) (s : string) :
  join sep (UseColorExtraction.split sep s) = s.
Proof.
  induction s as [|c s IH]; [reflexivity|].
  cbn [UseColorExtraction.split].
  destruct (split_cons sep s) as (h & t & Hs). rewrite Hs in *.
  case_decide as Hc.
  - subst c. rewrite join_cons_cons, IH. reflexivity.
  - rewrite join_cons_char, IH. reflexivity.
Qed.

Lemma split_length (sep : Ascii.ascii) (s : string) :
  length (UseColorExtraction.split sep s) = S (occurrences_of sep s).
Proof.
  induction s as [|c s IH]; [reflexivity|].
  cbn [UseColorExtraction.split occurrences_of].
  destruct (split_cons sep s) as (h & t & Hs). rewrite Hs in *.
  case_decide; simpl in *; lia.
Qed.

Lemma split_no_separator (sep : Ascii.ascii) (s : string) :
  Forall (fun line => occurrences_of sep line = 0%nat) (UseColorExtraction.split sep s).
Proof.
  induction s as [|c s IH]; [repeat constructor|].
  cbn [UseColorExtraction.split].
  destruct (split_cons sep s) as (h & t & Hs). rewrite Hs in *.
  apply Forall_cons in IH as [Hh Ht].
  case_decide as Hc.
  - constructor; [reflexivity|]. constructor; assumption.
  - constructor; [|exact Ht].
    cbn [occurrences_of]. case_decide; [contradiction | exact Hh].
Qed.

(** X15: the lines of the lyrics are the text cut at its line feeds:
    joining them with line feeds gives back the text, there is one line
    more than there are line feeds (so an empty text has one empty line),
    and no line contains a line feed. *)
Theorem lyricsLines_split (track : TrackInfo) (text : string) :
  lyrics track = Some text ->
  join newline (lyricsLines track) = text
  /\ length (lyricsLines track) = S (occurrences_of newline text)
  /\ Forall (fun line => occurrences_of newline line = 0%nat) (lyricsLines track).
Proof.
  intros Ht. unfold lyricsLines. rewrite Ht.
  split; [apply join_split|]. split; [apply split_length | apply split_no_separator].
Qed.

Lemma lyricsLines_split_witness :
  join newline (lyricsLines (with_lyrics two_verses)) = two_verses
  /\ length (lyricsLines (with_lyrics two_verses)) = 3%nat.
Proof.
  destruct (lyricsLines_split (with_lyrics two_verses) two_verses eq_refl)
    as (Hjoin & Hlength & _).
  split; [exact Hjoin | exact Hlength].
Defined.

Lemma or_else_nbsp (line : string) :
  UseColorExtraction.or_else (Some line) nbsp <> EmptyString
  /\ (line <> EmptyString -> UseColorExtraction.or_else (Some line) nbsp = line)
  /\ (line = EmptyString -> UseColorExtraction.or_else (Some line) nbsp = nbsp).
Proof.
  unfold UseColorExtraction.or_else.
  case_decide as Hl; repeat split; try congruence; discriminate.
Qed.

(** X16: the lyrics panel says that no lyrics are available exactly when
    the track has no lyrics or its lyrics are the empty string; otherwise
    it draws one paragraph per line, in order, and no paragraph is empty:
    a line that is not empty is drawn as it is and an empty line as a
    no-break space. *)
Theorem lyrics_panel (track : TrackInfo) :
  (panel track = NoLyricsAvailable
     <-> lyrics track = None \/ lyrics track = Some EmptyString)
  /\ forall paragraphs, panel track = Lines paragraphs ->
       length paragraphs = length (lyricsLines track)
       /\ Forall (fun p => p <> EmptyString) paragraphs
       /\ forall i line, lyricsLines track !! i = Some line ->
            paragraphs !! i = Some (if decide (line = EmptyString) then nbsp else line).
Proof.
  unfold panel, Truthy.truthy. split.
  - destruct (lyrics track) as [text|]; simpl.
    + case_bool_decide as Ht; simpl; split; intros H; try discriminate H.
      * right. congruence.
      * reflexivity.
      * destruct H as [H|H]; [discriminate H | congruence].
    + split; [auto | reflexivity].
  - intros paragraphs Hp.
    destruct (lyrics track) as [text|] eqn:Ht; simpl in Hp; [|discriminate Hp].
    case_bool_decide; simpl in Hp; [discriminate Hp|].
    injection Hp as <-. split; [apply length_fmap|]. split.
    + apply Forall_fmap, Forall_forall. intros line _. apply or_else_nbsp.
    + intros i line Hi. rewrite list_lookup_fmap, Hi. reflexivity.
Qed.

Lemma lyrics_panel_witness :
  panel (with_lyrics EmptyString) = NoLyricsAvailable
  /\ exists paragraphs,
       panel (with_lyrics two_verses) = Lines paragraphs
       /\ paragraphs !! 1%nat = Some nbsp.
Proof.
  split.
  - apply (proj1 (lyrics_panel (with_lyrics EmptyString))). right. reflexivity.
  - exists ((fun line => UseColorExtraction.or_else (Some line) nbsp)
              <$> lyricsLines (with_lyrics two_verses)).
    split; [reflexivity|].
    destruct (proj2 (lyrics_panel (with_lyrics two_verses)) _ eq_refl)
      as (_ & _ & Hlines).
    apply (Hlines 1%nat EmptyString). reflexivity.
Defined.

End LyricsDisplayProperties.

(** ** The artist display *)

Section ArtistInfoDisplayProperties.

Import ArtistInfoDisplay.

Lemma falsy_url_truthy (a : option string) :
  UseColorExtraction.falsy_url a = negb (Truthy.truthy a).
Proof. destruct a as [s|]; simpl; [|reflexivity]. destruct (bool_decide _); reflexivity. Qed.

(** X17: the portrait of the artist display always has a usable source:
    the artist image when there is one, else the album art when there is
    one, else the placeholder; an empty URL counts as missing.  The
    backdrop is drawn exactly when one of the two URLs is usable, and it
    then has the same source as the portrait; when neither is usable the
    hook is run with a falsy URL and sets the default palette. *)
Theorem artist_images (track : TrackInfo) :
  Truthy.truthy (portrait track) = true
  /\ (Truthy.truthy (artist_image_url track) = true ->
        backdrop track = artist_image_url track
        /\ portrait track = artist_image_url track)
  /\ (Truthy.truthy (artist_image_url track) = false ->
      Truthy.truthy (album_art_url track) = true ->
        backdrop track = album_art_url track
        /\ portrait track = album_art_url track)
  /\ (Truthy.truthy (artist_image_url track) = false ->
      Truthy.truthy (album_art_url track) = false ->
        Truthy.truthy (backdrop track) = false
        /\ portrait track = Some "/placeholder-artist.png"
        /\ forall palette,
             UseColorExtraction.step (UseColorExtraction.EffectRun (backdrop track))
               palette = UseColorExtraction.defaultPalette)
  /\ (Truthy.truthy (backdrop track) = true -> portrait track = backdrop track)
  /\ (Truthy.truthy (backdrop track) = false
        <-> Truthy.truthy (artist_image_url track) = false
            /\ Truthy.truthy (album_art_url track) = false).
Proof.
  unfold portrait, backdrop, Truthy.or.
  destruct (Truthy.truthy (artist_image_url track)) eqn:Ha;
    destruct (Truthy.truthy (album_art_url track)) eqn:Hb;
    rewrite ?Ha, ?Hb; simpl; rewrite ?Ha, ?Hb; simpl;
    repeat split; intros; try discriminate; try reflexivity; try tauto;
    try (destruct H; discriminate).
  all: simpl; rewrite falsy_url_truthy, Hb; reflexivity.
Qed.

Lemma artist_images_witness :
  portrait (with_images (Some "artist.png") (Some "cover.png")) = Some "artist.png"
  /\ portrait (with_images (Some EmptyString) (Some "cover.png")) = Some "cover.png"
  /\ backdrop (with_images None (Some "cover.png")) = Some "cover.png"
  /\ portrait (with_images None (Some EmptyString)) = Some "/placeholder-artist.png".
Proof.
  split; [|split; [|split]].
  - apply (proj1 (proj2 (artist_images
             (with_images (Some "artist.png") (Some "cover.png"))))).
    reflexivity.
  - apply (proj1 (proj2 (proj2 (artist_images
             (with_images (Some EmptyString) (Some "cover.png")))))); reflexivity.
  - apply (proj1 (proj2 (proj2 (artist_images
             (with_images None (Some "cover.png")))))); reflexivity.
  - apply (proj1 (proj2 (proj2 (proj2 (artist_images
             (with_images None (Some EmptyString))))))); reflexivity.
Defined.

End ArtistInfoDisplayProperties.

(** ** The visualizer *)

Section VisualizerDisplayProperties.

Import VisualizerDisplay.

Variable random : nat -> Q.








End VisualizerDisplayProperties.


(** ** The colour extraction: counting, ranking and quantizing *)

Section ColorCountingProperties.

Import UseColorExtraction.

Lemma map_get_None_keys (key : string) (m : CountMap) :
  map_get key m = None <-> key ∉ m.*1.
Proof.
  induction m as [|[k v] m IH]; simpl.
  - split; [intros _; apply not_elem_of_nil | reflexivity].
  - rewrite not_elem_of_cons. destruct (decide (k = key)) as [->|Hne].
    + split; [discriminate | intros [[] _]; reflexivity].
    + rewrite IH. split; [intros H; split; [congruence | exact H] | intros [_ H]; exact H].
Qed.

Lemma map_set_absent (key : string) (value : N) (m : CountMap) :
  map_get key m = None -> map_set key value m = m ++ [(key, value)].
Proof.
  induction m as [|[k v] m IH]; simpl; [reflexivity|].
  case_decide; [discriminate|]. intros Hm. rewrite IH by exact Hm. reflexivity.
Qed.

Lemma map_set_present_length (key : string) (value : N) (m : CountMap) :
  is_Some (map_get key m) -> length (map_set key value m) = length m.
Proof.
  induction m as [|[k v] m IH]; simpl; [intros [x Hx]; discriminate Hx|].
  case_decide; [reflexivity|]. intros Hm. simpl. rewrite IH by exact Hm. reflexivity.
Qed.

(** X19: the count map behaves as a map that remembers insertion order:
    a key that was set reads back its value and no other key is disturbed;
    setting a new key appends it at the end; setting a key that is present
    keeps the number and the order of the keys. *)
Theorem count_map_laws (m : CountMap) (key key' : string) (value : N) :
  map_get key (map_set key value m) = Some value
  /\ (key <> key' -> map_get key' (map_set key value m) = map_get key' m)
  /\ (map_get key m = None -> map_set key value m = m ++ [(key, value)])
  /\ (is_Some (map_get key m) ->
        length (map_set key value m) = length m
        /\ (map_set key value m).*1 = m.*1).
Proof.
  split; [apply map_get_set_eq|].
  split; [apply map_get_set_ne|].
  split; [apply map_set_absent|].
  intros Hsome. split; [apply map_set_present_length, Hsome|].
  apply map_set_keys_old.
  destruct (decide (key ∈ m.*1)) as [Hin|Hout]; [exact Hin|].
  apply map_get_None_keys in Hout. rewrite Hout in Hsome.
  destruct Hsome as [x Hx]. discriminate Hx.
Qed.

Lemma count_map_laws_witness :
  map_set "0,0,0" 1%N [("32,32,32", 2%N)] = [("32,32,32", 2%N); ("0,0,0", 1%N)]
  /\ (map_set "32,32,32" 3%N [("32,32,32", 2%N); ("0,0,0", 1%N)]).*1
     = ["32,32,32"; "0,0,0"]
  /\ map_get "0,0,0" (map_set "32,32,32" 3%N [("32,32,32", 2%N); ("0,0,0", 1%N)])
     = Some 1%N.
Proof.
  split; [|split].
  - apply (proj1 (proj2 (proj2 (count_map_laws [("32,32,32", 2%N)] "0,0,0" "0,0,0" 1%N)))).
    reflexivity.
  - apply (proj2 (proj2 (proj2
             (count_map_laws [("32,32,32", 2%N); ("0,0,0", 1%N)]
                "32,32,32" "0,0,0" 3%N)))).
    eexists. reflexivity.
  - apply (proj1 (proj2 (count_map_laws [("32,32,32", 2%N); ("0,0,0", 1%N)]
                           "32,32,32" "0,0,0" 3%N))).
    discriminate.
Defined.

Lemma total_count_key (m : CountMap) (key : string) :
  Pixels.total (count_key m key) = (Pixels.total m + 1)%N.
Proof.
  unfold count_key. induction m as [|[k v] m IH]; [reflexivity|].
  cbn [map_get map_set].
  destruct (decide (k = key)) as [->|Hne].
  - unfold Pixels.total. simpl. lia.
  - change (Pixels.total ((k, v) :: ?l)) with (v + Pixels.total l)%N.
    rewrite IH. unfold Pixels.total. simpl. lia.
Qed.

Lemma total_fold_count (keys : list string) (m : CountMap) :
  Pixels.total (fold_left count_key keys m)
  = (Pixels.total m + N.of_nat (length keys))%N.
Proof.
  revert m. induction keys as [|k keys IH]; intros m; simpl fold_left.
  - simpl. lia.
  - rewrite IH, total_count_key. simpl length. lia.
Qed.

Lemma pixel_keys_data (image : list Pixels.RGBA) :
  pixel_keys (Pixels.data image) = Pixels.key_of <$> image.
Proof.
  induction image as [|[[[r g] b] a] image IH]; [reflexivity|].
  change (Pixels.data ((r, g, b, a) :: image))
    with (r :: g :: b :: a :: Pixels.data image).
  cbn [pixel_keys]. rewrite IH. reflexivity.
Qed.

(** X20: every pixel is counted exactly once: the counts of the map add
    up to the number of keys the loop produced, which for image data of
    four bytes per pixel is the number of pixels. *)
Theorem counts_add_up (pixels : list Byte.byte) (image : list Pixels.RGBA) :
  Pixels.total (colorCounts pixels) = N.of_nat (length (pixel_keys pixels))
  /\ Pixels.total (colorCounts (Pixels.data image)) = N.of_nat (length image)
  /\ (length (colorCounts (Pixels.data image)) <= length image)%nat.
Proof.
  unfold colorCounts. rewrite !total_fold_count. simpl Pixels.total.
  rewrite pixel_keys_data, length_fmap.
  split; [lia|]. split; [lia|].
  assert (Hlen : forall keys m,
             (length (fold_left count_key keys m) <= length m + length keys)%nat).
  { intros keys. induction keys as [|k keys IH]; intros m; simpl; [lia|].
    etransitivity; [apply IH|].
    unfold count_key.
    destruct (map_get k m) as [v|] eqn:Hk.
    - rewrite map_set_present_length by (eexists; exact Hk). lia.
    - rewrite map_set_absent by exact Hk. rewrite length_app. simpl. lia. }
  specialize (Hlen (Pixels.key_of <$> image) []).
  rewrite length_fmap in Hlen. simpl in Hlen. exact Hlen.
Qed.

Lemma key_of_opaque_part (p q : Pixels.RGBA) :
  Pixels.opaque_part p = Pixels.opaque_part q -> Pixels.key_of p = Pixels.key_of q.
Proof.
  destruct p as [[[r g] b] a], q as [[[r' g'] b'] a']. simpl.
  intros H. injection H as -> -> ->. reflexivity.
Qed.

(** X21: the alpha channel is never read: two images of four bytes per
    pixel that agree on the red, green and blue bytes of every pixel give
    the same palette. *)
Theorem alpha_is_ignored (image image' : list Pixels.RGBA) :
  Pixels.opaque_part <$> image = Pixels.opaque_part <$> image' ->
  extracted (Pixels.data image) = extracted (Pixels.data image').
Proof.
  intros Hsame.
  assert (Hkeys : pixel_keys (Pixels.data image) = pixel_keys (Pixels.data image')).
  { rewrite !pixel_keys_data. revert image' Hsame.
    induction image as [|p image IH]; intros [|q image'] Hsame;
      try discriminate Hsame; [reflexivity|].
    rewrite !fmap_cons in *. injection Hsame as Hp Hrest.
    rewrite (key_of_opaque_part p q Hp), (IH image' Hrest). reflexivity. }
  unfold extracted, sortedColors, colorCounts. rewrite Hkeys. reflexivity.
Qed.

Lemma alpha_is_ignored_witness :
  extracted (Pixels.data [(x00, x10, xff, xff); (x20, x20, x20, x00)]%byte)
  = extracted (Pixels.data [(x00, x10, xff, x00); (x20, x20, x20, x7f)]%byte).
Proof.
  apply (alpha_is_ignored [(x00, x10, xff, xff); (x20, x20, x20, x00)]%byte
           [(x00, x10, xff, x00); (x20, x20, x20, x7f)]%byte).
  reflexivity.
Defined.

Lemma filter_sort_insert (c : N) (e : string * N) (l : list (string * N)) :
  filter (fun x => snd x = c) (sort_insert by_count_desc e l)
  = filter (fun x => snd x = c) (e :: l).
Proof.
  induction l as [|h t IH]; [reflexivity|].
  cbn [sort_insert]. unfold by_count_desc at 1.
  destruct (decide (Z.of_N (snd e) - Z.of_N (snd h) < 0)) as [Hlt|Hge];
    [|reflexivity].
  rewrite (filter_cons _ h), IH, !(filter_cons _ e), (filter_cons _ h).
  destruct (decide (snd e = c)) as [He|He]; [|reflexivity].
  destruct (decide (snd h = c)) as [Hh|Hh]; [lia | reflexivity].
Qed.

(** X22: the ranking is a stable sort of the map's entries: it holds the
    same entries, in descending order of count, and entries with the same
    count keep the order in which their colours first appear in the
    image. *)
Theorem ranking_is_stable (entries : list (string * N)) :
  sort by_count_desc entries ≡ₚ entries
  /\ StronglySorted count_desc (sort by_count_desc entries)
  /\ forall count : N,
       filter (fun e => snd e = count) (sort by_count_desc entries)
       = filter (fun e => snd e = count) entries.
Proof.
  split; [apply sort_perm|]. split; [apply sort_sorted|].
  intros count. induction entries as [|e entries IH]; [reflexivity|].
  change (sort by_count_desc (e :: entries))
    with (sort_insert by_count_desc e (sort by_count_desc entries)).
  rewrite filter_sort_insert, !(filter_cons _ e), IH. reflexivity.
Qed.

End ColorCountingProperties.

Section ColorPaletteProperties.

Import UseColorExtraction.

Lemma level_euclid (x : N) :
  exists r : N, (r < 32)%N /\ (x + 16 = (x + 16) / 32 * 32 + r)%N.
Proof.
  exists ((x + 16) mod 32)%N. split.
  - apply N.mod_lt. discriminate.
  - rewrite N.mul_comm. apply N.div_mod. discriminate.
Qed.

(** X23: quantizing a channel replaces it by the nearest multiple of 32,
    a tie going up: the result is a multiple of 32 at most 16 away from
    the channel, it grows with the channel, and it is 256, a value no
    8-bit channel has, exactly for the channels from 240 to 255. *)
Theorem quantize_nearest_multiple (c c' : Byte.byte) :
  quantize (Some c) = JNum (Pixels.level c)
  /\ (Pixels.level c mod 32 = 0)%N
  /\ (Pixels.level c <= Byte.to_N c + 16)%N
  /\ (Byte.to_N c < Pixels.level c + 16)%N
  /\ (Pixels.level c = 256 <-> 240 <= Byte.to_N c)%N
  /\ (Byte.to_N c <= Byte.to_N c' -> Pixels.level c <= Pixels.level c')%N.
Proof.
  pose proof (to_N_bounded c) as Hc.
  unfold Pixels.level.
  destruct (level_euclid (Byte.to_N c)) as (r & Hr & Heq).
  split; [reflexivity|].
  split; [apply N.Div0.mod_mul|].
  split; [lia|]. split; [lia|]. split; [lia|].
  intros Hle.
  apply N.mul_le_mono_r, N.Div0.div_le_mono. lia.
Qed.

Lemma quantize_nearest_multiple_witness :
  (Pixels.level x10 <= Pixels.level xf0)%N /\ Pixels.level xf0 = 256%N.
Proof.
  split.
  - apply (proj2 (proj2 (proj2 (proj2 (proj2 (quantize_nearest_multiple x10 xf0)))))).
    vm_compute. discriminate.
  - apply (proj1 (proj2 (proj2 (proj2 (proj2 (quantize_nearest_multiple xf0 xf0)))))).
    vm_compute. discriminate.
Defined.

Lemma key_parts (r g b : jsnumber) :
  r ∈ quantized_values -> g ∈ quantized_values -> b ∈ quantized_values ->
  Number <$> split ","%char (color_key r g b) = [r; g; b].
Proof.
  intros Hr Hg Hb.
  assert (Hall : Forall (fun r => Forall (fun g => Forall (fun b =>
            Number <$> split ","%char (color_key r g b) = [r; g; b])
            quantized_values) quantized_values) quantized_values).
  { apply (bool_decide_unpack _). vm_compute. exact I. }
  rewrite Forall_forall in Hall. specialize (Hall r Hr).
  rewrite Forall_forall in Hall. specialize (Hall g Hg).
  rewrite Forall_forall in Hall. exact (Hall b Hb).
Qed.

(** X24: a key can be read back: cutting the key of three quantized
    channels at its commas and converting the parts to numbers gives the
    three channels again.  Hence two pixels share a key, and a count, only
    when their quantized colours are the same. *)
Theorem color_key_round_trip (r g b r' g' b' : option Byte.byte) :
  Number <$> split ","%char (color_key (quantize r) (quantize g) (quantize b))
    = [quantize r; quantize g; quantize b]
  /\ (color_key (quantize r) (quantize g) (quantize b)
      = color_key (quantize r') (quantize g') (quantize b') ->
      quantize r = quantize r' /\ quantize g = quantize g' /\ quantize b = quantize b').
Proof.
  split; [apply key_parts; apply quantize_values|].
  intros Hkey.
  pose proof (key_parts _ _ _ (quantize_values r) (quantize_values g)
                (quantize_values b)) as H1.
  pose proof (key_parts _ _ _ (quantize_values r') (quantize_values g')
                (quantize_values b')) as H2.
  rewrite Hkey, H2 in H1. injection H1 as -> -> ->. repeat split.
Qed.

Lemma color_key_round_trip_witness :
  quantize (Some x0f) = quantize (Some x00)
  /\ quantize (Some x10) = quantize (Some x20)
  /\ quantize (Some xff) = quantize (Some xf0).
Proof.
  apply (proj2 (color_key_round_trip (Some x0f) (Some x10) (Some xff)
                  (Some x00) (Some x20) (Some xf0))).
  reflexivity.
Defined.

Lemma pixel_keys_nonempty (pixels : list Byte.byte) :
  pixels <> [] -> pixel_keys pixels <> [].
Proof.
  destruct pixels as [|r [|g [|b [|a rest]]]]; intros H; try contradiction;
    cbn [pixel_keys]; discriminate.
Qed.

(** X25: for an image with at least one byte of data, the dominant colour
    is the colour string of a most frequent quantized colour: its entry
    counts the pixels with its key, and no entry of the map has a larger
    count.  For an image without data the palette is the default
    palette. *)
Theorem dominant_is_most_frequent (pixels : list Byte.byte) :
  (pixels <> [] ->
     exists key count,
       (key, count) ∈ colorCounts pixels
       /\ count = occurrences key (pixel_keys pixels)
       /\ (forall key' count', (key', count') ∈ colorCounts pixels ->
             (count' <= count)%N)
       /\ dominant (extracted pixels) = rgb_of_entry (key, count))
  /\ (pixels = [] -> extracted pixels = defaultPalette).
Proof.
  split; [|intros ->; reflexivity].
  intros Hne.
  destruct (colorCounts_spec pixels) as (_ & Hkeys & Hcounts).
  pose proof (sort_perm by_count_desc (colorCounts pixels)) as Hperm.
  pose proof (sort_sorted (colorCounts pixels)) as Hsorted.
  destruct (sort by_count_desc (colorCounts pixels)) as [|[key count] rest] eqn:Hrank.
  - exfalso.
    assert (Hk : exists k, k ∈ pixel_keys pixels).
    { pose proof (pixel_keys_nonempty pixels Hne) as Hn.
      destruct (pixel_keys pixels) as [|k ks]; [contradiction|].
      exists k. apply elem_of_cons. left; reflexivity. }
    destruct Hk as [k Hk]. apply Hkeys in Hk.
    apply Permutation_nil_l in Hperm. rewrite <- Hperm in Hk.
    apply elem_of_nil in Hk. contradiction.
  - assert (Hin : (key, count) ∈ colorCounts pixels).
    { rewrite <- Hperm. apply elem_of_cons. left; reflexivity. }
    exists key, count. split; [exact Hin|].
    split; [apply (Hcounts key count Hin)|]. split.
    + intros key' count' Hin'. rewrite <- Hperm in Hin'.
      apply elem_of_cons in Hin' as [Heq|Hin'].
      * injection Heq as _ ->. lia.
      * apply StronglySorted_inv in Hsorted as [_ Hall].
        rewrite Forall_forall in Hall. exact (Hall (key', count') Hin').
    + pose proof (extracted_slot pixels 0 ltac:(lia)) as Hslot.
      rewrite Hrank in Hslot. simpl in Hslot. injection Hslot as Hslot. exact Hslot.
Qed.

Lemma dominant_is_most_frequent_witness :
  exists key count,
    (key, count) ∈ colorCounts sample_pixels
    /\ dominant (extracted sample_pixels) = rgb_of_entry (key, count).
Proof.
  destruct (proj1 (dominant_is_most_frequent sample_pixels)) as (key & count & Hin & _ & _ & Hd).
  - discriminate.
  - exists key, count. split; [exact Hin | exact Hd].
Defined.

Lemma count_repeated_key (key : string) (n : nat) (c : N) :
  fold_left count_key (replicate n key) [(key, c)] = [(key, (c + N.of_nat n)%N)].
Proof.
  revert c. induction n as [|n IH]; intros c.
  - simpl. f_equal. f_equal. lia.
  - cbn [replicate fold_left]. unfold count_key at 2. cbn [map_get map_set].
    case_decide; [|contradiction]. simpl default. rewrite IH. f_equal. f_equal. lia.
Qed.

(** X26: an image of one colour has that colour as its dominant colour
    and the default value in the five other slots, however many pixels it
    has. *)
Theorem uniform_image_palette (n : nat) (r g b a : Byte.byte) :
  extracted (Pixels.data (replicate (S n) (r, g, b, a)))
  = {| dominant := rgb_text (quantize (Some r)) (quantize (Some g)) (quantize (Some b));
       vibrant := vibrant defaultPalette;
       muted := muted defaultPalette;
       darkVibrant := darkVibrant defaultPalette;
       darkMuted := darkMuted defaultPalette;
       lightVibrant := lightVibrant defaultPalette |}.
Proof.
  assert (Hcounts : colorCounts (Pixels.data (replicate (S n) (r, g, b, a)))
                    = [(Pixels.key_of (r, g, b, a), N.of_nat (S n))]).
  { unfold colorCounts. rewrite pixel_keys_data, fmap_replicate.
    cbn [replicate fold_left]. unfold count_key at 2. cbn [map_get map_set].
    simpl default. rewrite count_repeated_key. f_equal. f_equal. lia. }
  unfold extracted, sortedColors. rewrite Hcounts.
  cbn [sort foldr sort_insert take fmap list_fmap lookup list_lookup].
  cbn [Pixels.key_of].
  rewrite rgb_of_entry_color_key by apply quantize_values.
  rewrite or_else_present; [reflexivity|].
  rewrite <- (rgb_of_entry_color_key _ _ _ 0%N) by apply quantize_values.
  apply rgb_of_entry_color.
Qed.

End ColorPaletteProperties.
